(** * Incident summarizer: aggregation and redaction pipeline

    A shallow embedding of [streamlit_app.py]: the three redaction patterns
    and [re.sub] over them, note aggregation, the attachment summarizer, the
    ticketing client's incident lookup and the three button handlers over the
    session state. *)

From Stdlib Require Import NArith ZArith Ascii String.
From stdpp Require Import base tactics option list gmap strings.

Local Open Scope N_scope.

(** ** Text

    A Python [str] is a sequence of Unicode code points. *)

Abbreviation char := N.
Abbreviation text := (list char).

Definition text_of (s : string) : text :=
  N_of_ascii <$> list_ascii_of_string s.

Definition in_range (lo hi c : char) : bool := (lo <=? c) && (c <=? hi).

Definition is_ascii (c : char) : bool := c <? 128.
Definition ascii_upper (c : char) : bool := in_range 65 90 c.
Definition ascii_lower (c : char) : bool := in_range 97 122 c.
Definition ascii_digit (c : char) : bool := in_range 48 57 c.
Definition ascii_alnum (c : char) : bool :=
  ascii_upper c || ascii_lower c || ascii_digit c.

(** The part of the Unicode character database that [re] and [str.lower]
    consult for code points outside ASCII.  It belongs to the interpreter, not
    to the application: the development is parametric in it. *)
Class UnicodeData := {
  uni_decimal : char → bool;      (* Py_UNICODE_ISDECIMAL *)
  uni_alpha_numeric : char → bool; (* ISALPHA || ISDIGIT || ISNUMERIC *)
  uni_lower : text → text          (* str.lower on a string that is not all ASCII *)
}.

(** A database that knows nothing outside ASCII. *)
Definition ascii_only : UnicodeData :=
  {| uni_decimal := λ _, false;
     uni_alpha_numeric := λ _, false;
     uni_lower := λ t, t |}.

(** The entries for the Arabic-Indic digits U+0660..U+0669 (category Nd), and
    nothing else outside ASCII. *)
Definition arabic_indic : UnicodeData :=
  {| uni_decimal := in_range 1632 1641;
     uni_alpha_numeric := λ _, false;
     uni_lower := λ t, t |}.

Section Classes.
Context `{UnicodeData}.

(** [\d] in a [str] pattern: any Unicode decimal digit. *)
Definition is_digit (c : char) : bool :=
  if is_ascii c then ascii_digit c else uni_decimal c.

(** [\w] in a [str] pattern: alphanumeric or underscore. *)
Definition is_word (c : char) : bool :=
  if is_ascii c then ascii_alnum c || (c =? 95)
  else uni_decimal c || uni_alpha_numeric c.

Definition word_before (prev : option char) : bool :=
  from_option is_word false prev.
Definition word_at (s : text) : bool :=
  from_option is_word false (head s).

(** [\b]: exactly one of the two neighbours is a word character; the ends
    of the string count as non-word. *)
Definition at_boundary (prev : option char) (s : text) : bool :=
  xorb (word_before prev) (word_at s).
End Classes.

(** ** The patterns

    Each of the three patterns is a sequence of items, an item being [\b] or a
    one-character class under a greedy quantifier [{lo,hi}]. *)

Inductive atom :=
| Bnd
| Rep (cls : char → bool) (lo : nat) (hi : option nat).

Definition Lit (c : char) : atom := Rep (N.eqb c) 1 (Some 1%nat).

Definition under (hi : option nat) (n : nat) : bool :=
  match hi with
  | None => true
  | Some h => (n <? h)%nat
  end.

(** [[A-Za-z0-9._%+-]] *)
Definition cls_local (c : char) : bool :=
  ascii_alnum c || (c =? 46) || (c =? 95) || (c =? 37) || (c =? 43) || (c =? 45).
(** [[A-Za-z0-9.-]] *)
Definition cls_domain (c : char) : bool :=
  ascii_alnum c || (c =? 46) || (c =? 45).
(** [[A-Z|a-z]]: the bar is a member of the class. *)
Definition cls_tld (c : char) : bool :=
  ascii_upper c || (c =? 124) || ascii_lower c.

Section Patterns.
Context `{UnicodeData}.

Definition pat_email : list atom :=
  [Bnd; Rep cls_local 1 None; Lit 64; Rep cls_domain 1 None; Lit 46;
   Rep cls_tld 2 None; Bnd].
Definition pat_phone : list atom :=
  [Bnd; Rep is_digit 10 (Some 10%nat); Bnd].
Definition pat_ssn : list atom :=
  [Bnd; Rep is_digit 3 (Some 3%nat); Lit 45; Rep is_digit 2 (Some 2%nat);
   Lit 45; Rep is_digit 4 (Some 4%nat); Bnd].

(** [sensitive_patterns.values()], in insertion order. *)
Definition sensitive_patterns : list (list atom) :=
  [pat_email; pat_phone; pat_ssn].

(** *** Backtracking matcher

    [rep cls lo hi k n prev s] has already taken [n] characters of the
    class; it takes one more when it can and falls back to the continuation
    [k] when the longer attempt fails.  The result is the number of
    characters consumed from [s]. *)
Fixpoint rep (cls : char → bool) (lo : nat) (hi : option nat)
    (k : option char → text → option nat)
    (n : nat) (prev : option char) (s : text) : option nat :=
  let stop := if (lo <=? n)%nat then k prev s else None in
  match s with
  | c :: s' =>
      if cls c && under hi n then
        match rep cls lo hi k (S n) (Some c) s' with
        | Some m => Some (S m)
        | None => stop
        end
      else stop
  | [] => stop
  end.

Fixpoint run (p : list atom) : option char → text → option nat :=
  match p with
  | [] => λ _ _, Some 0%nat
  | Bnd :: p' => λ prev s, if at_boundary prev s then run p' prev s else None
  | Rep cls lo hi :: p' => rep cls lo hi (run p') 0
  end.

Definition token : text := text_of "[REDACTED]".

(** *** [re.sub(pattern, '[REDACTED]', text)]

    Left to right; [skip] counts the characters of the current match that
    are still to be dropped, [prev] is the character before the position.
    An empty match is replaced too and the scan moves one character on. *)
Fixpoint sub_from (p : list atom) (skip : nat) (prev : option char)
    (s : text) : text :=
  match s with
  | [] =>
      match skip, run p prev [] with
      | O, Some O => token
      | _, _ => []
      end
  | c :: s' =>
      match skip with
      | S j => sub_from p j (Some c) s'
      | O =>
          match run p prev s with
          | Some (S m) => token ++ sub_from p m (Some c) s'
          | Some O => token ++ c :: sub_from p 0 (Some c) s'
          | None => c :: sub_from p 0 (Some c) s'
          end
      end
  end.

Definition re_sub (p : list atom) (s : text) : text := sub_from p 0 None s.

(** [redact_sensitive_info] *)
Definition redact_sensitive_info (t : text) : text :=
  foldl (λ acc p, re_sub p acc) t sensitive_patterns.
End Patterns.


(** ** Vocabulary of the redaction statements *)

(** The character before the position reached after reading [w]. *)
Definition last_of (prev : option char) (w : text) : option char :=
  match last w with
  | Some c => Some c
  | None => prev
  end.

Definition within (hi : option nat) (n : nat) : Prop :=
  match hi with
  | None => True
  | Some h => (n ≤ h)%nat
  end.

(** The least number of characters a pattern reads. *)
Fixpoint min_len (p : list atom) : nat :=
  match p with
  | [] => 0
  | Bnd :: p' => min_len p'
  | Rep _ lo _ :: p' => lo + min_len p'
  end.

(** No class of the pattern accepts [c]. *)
Definition rejects (p : list atom) (c : char) : Prop :=
  Forall (λ a, match a with Bnd => True | Rep cls _ _ => cls c = false end) p.

Inductive kind := Email | Phone | Ssn.

(** A text cut into the characters that are kept and the stretches that are
    replaced, each stretch with the pattern that found it. *)
Inductive piece :=
| Keep (c : char)
| Hit (k : kind) (m : text).

(** The text before replacement. *)
Fixpoint flat (pcs : list piece) : text :=
  match pcs with
  | [] => []
  | Keep c :: rest => c :: flat rest
  | Hit _ m :: rest => m ++ flat rest
  end.

(** The text with the stretches of the selected kinds replaced. *)
Fixpoint render_sel (sel : kind → bool) (pcs : list piece) : text :=
  match pcs with
  | [] => []
  | Keep c :: rest => c :: render_sel sel rest
  | Hit k m :: rest =>
      (if sel k then token else m) ++ render_sel sel rest
  end.

Definition render (pcs : list piece) : text := render_sel (λ _, true) pcs.

(** The unselected stretches turned back into kept characters. *)
Fixpoint settle (sel : kind → bool) (pcs : list piece) : list piece :=
  match pcs with
  | [] => []
  | Keep c :: rest => Keep c :: settle sel rest
  | Hit k m :: rest =>
      (if sel k then [Hit k m] else Keep <$> m) ++ settle sel rest
  end.

(** The patterns in the order of the dictionary. *)
Definition rank (k : kind) : nat :=
  match k with
  | Email => 0
  | Phone => 1
  | Ssn => 2
  end.
Definition before (q k : kind) : bool := (rank k <? rank q)%nat.
Definition upto (q k : kind) : bool := (rank k <=? rank q)%nat.

Section Matching.
Context `{UnicodeData}.

(** [matches p prev s n]: some path of the matcher through [p] consumes
    the first [n] characters of [s] when [prev] precedes them. *)
Inductive matches : list atom → option char → text → nat → Prop :=
| matches_nil prev s : matches [] prev s 0
| matches_bnd p prev s n :
    at_boundary prev s = true → matches p prev s n →
    matches (Bnd :: p) prev s n
| matches_rep cls lo hi p prev w s n :
    Forall (λ c, cls c = true) w →
    (lo ≤ length w)%nat → within hi (length w) →
    matches p (last_of prev w) s n →
    matches (Rep cls lo hi :: p) prev (w ++ s) (length w + n).

(** No position inside the prefix [w] of [w ++ s] starts a match of [p]. *)
Fixpoint quiet_in (p : list atom) (prev : option char) (w s : text) : Prop :=
  match w with
  | [] => True
  | c :: w' => run p prev (w ++ s) = None ∧ quiet_in p (Some c) w' s
  end.

(** No position of [s] starts a match of [p]. *)
Definition quiet (p : list atom) (prev : option char) (s : text) : Prop :=
  quiet_in p prev s [].

(** What the scan relies on: a match is never empty, sits between two word
    boundaries and does not contain the opening bracket of the token. *)
Definition fenced (p : list atom) : Prop :=
  ∀ prev s n, matches p prev s n →
    (0 < n)%nat
    ∧ at_boundary prev s = true
    ∧ at_boundary (last_of prev (take n s)) (drop n s) = true
    ∧ Forall (λ c, c ≠ 91) (take n s).

Definition pat (k : kind) : list atom :=
  match k with
  | Email => pat_email
  | Phone => pat_phone
  | Ssn => pat_ssn
  end.

(** [pcs] is what the scan for the pattern of kind [k] makes of its text:
    a stretch where the matcher succeeds, of the length it returns, a kept
    character where it fails. *)
Inductive scanned (k : kind) : option char → list piece → Prop :=
| scanned_nil prev : scanned k prev []
| scanned_keep prev c rest :
    run (pat k) prev (c :: flat rest) = None →
    scanned k (Some c) rest →
    scanned k prev (Keep c :: rest)
| scanned_hit prev m rest :
    m ≠ [] →
    run (pat k) prev (m ++ flat rest) = Some (length m) →
    scanned k (last_of prev m) rest →
    scanned k prev (Hit k m :: rest).

(** Every stretch is non-empty and lies between two word boundaries of the
    text before replacement. *)
Inductive hits_fenced : option char → list piece → Prop :=
| hits_fenced_nil prev : hits_fenced prev []
| hits_fenced_keep prev c rest :
    hits_fenced (Some c) rest → hits_fenced prev (Keep c :: rest)
| hits_fenced_hit prev k m rest :
    m ≠ [] →
    at_boundary prev (m ++ flat rest) = true →
    at_boundary (last_of prev m) (flat rest) = true →
    hits_fenced (last_of prev m) rest →
    hits_fenced prev (Hit k m :: rest).

(** The pattern [q] matches at no kept character of the text before
    replacement. *)
Inductive keeps_quiet (q : list atom) : option char → list piece → Prop :=
| keeps_quiet_nil prev : keeps_quiet q prev []
| keeps_quiet_keep prev c rest :
    run q prev (c :: flat rest) = None →
    keeps_quiet q (Some c) rest →
    keeps_quiet q prev (Keep c :: rest)
| keeps_quiet_hit prev k m rest :
    keeps_quiet q (last_of prev m) rest →
    keeps_quiet q prev (Hit k m :: rest).

(** [pcs] cuts its text at the occurrences of the three patterns in that
    text: a stretch of kind [k] is where the pattern of kind [k] matches,
    with the length of the stretch, and no pattern earlier in the
    dictionary matches; a kept character is where none of the three
    matches. *)
Inductive occurrences : option char → list piece → Prop :=
| occurrences_nil prev : occurrences prev []
| occurrences_keep prev c rest :
    (∀ k, run (pat k) prev (c :: flat rest) = None) →
    occurrences (Some c) rest →
    occurrences prev (Keep c :: rest)
| occurrences_hit prev k m rest :
    m ≠ [] →
    run (pat k) prev (m ++ flat rest) = Some (length m) →
    (∀ j, before k j = true → run (pat j) prev (m ++ flat rest) = None) →
    occurrences (last_of prev m) rest →
    occurrences prev (Hit k m :: rest).

(** How the character before a position of the replaced text relates to the
    one before the same position of the original: it is the same, or it is
    the closing bracket of a token whose stretch ended at a boundary. *)
Definition ctx (prev prev' : option char) (s : text) : Prop :=
  prev' = prev ∨ (prev' = Some 93 ∧ at_boundary prev s = true).
End Matching.

(** "١٢٣-45-6789@a.cc": an SSN whose first three digits are Arabic-Indic,
    followed by an at sign and a domain. *)
Definition mixed_digits_ssn : text := [1633; 1634; 1635] ++ text_of "-45-6789@a.cc".

Definition plain_ticket : text :=
  text_of "mail bob@example.com or call 5551234567, ssn 123-45-6789.".

(** "café: bob@example.com, 5551234567": a line with a character outside
    ASCII that is not a digit. *)
Definition accented_ticket : text :=
  text_of "caf" ++ [233] ++ text_of ": bob@example.com, 5551234567".

(** ** Python values and effects *)

(** A JSON object whose values are strings, as the table API returns them. *)
Abbreviation record := (gmap string text).

Inductive exn :=
| KeyError (key : string)
| JSONDecodeError.

Inductive outcome (A : Type) :=
| Done (a : A)
| Raised (e : exn).
Arguments Done {A} a.
Arguments Raised {A} e.

Inductive request :=
| GetIncident (number : text)
| GetNotes (sys_id : text)
| GetAttachments (sys_id : text)
| GetFile (sys_id : text).

(** What the script does to the outside: HTTP requests, model calls and
    Streamlit output. *)
Inductive event :=
| EvHttp (r : request)
| EvCompletion (prompt : text)
| EvChat (prompt : text)
| EvWrite (msg : text) (arg : record)
| EvError (msg : text)
| EvInfo (msg : text)
| EvRerun.

(** [st.session_state] *)
Record session := {
  incident_data : option record;
  incident_notes : option (list record);
  summarized_notes : option text;
  resolution_steps : option text;
  incident_number : option text
}.

(** Lines 200-205. *)
Definition initial_session : session :=
  {| incident_data := None; incident_notes := None; summarized_notes := None;
     resolution_steps := None; incident_number := None |}.

(** A [requests] response: the status and the decoded body.  [json_result] is
    [None] when the body is not JSON, [Some None] when the object has no
    (or a null) ["result"], [Some (Some l)] when ["result"] is the list [l]. *)
Record response := {
  status_code : Z;
  json_result : option (option (list record))
}.

Record file_response := {
  file_status : Z;
  content : list N
}.

(** The two remote services.  A model call either fails with the text of the
    exception or returns the stripped text of the first choice. *)
Record world := {
  http_table : request → response;
  http_file : text → file_response;
  openai_completion : text → text + text;
  openai_chat : text → text + text
}.

(** Computations that read and write the session, log events and may raise. *)
Definition M (A : Type) : Type := session → outcome A * session * list event.

Definition ret {A} (a : A) : M A := λ st, (Done a, st, []).
Definition bind {A B} (f : A → M B) (m : M A) : M B :=
  λ st,
    match m st with
    | (Done a, st', log) =>
        match f a st' with
        | (r, st'', log') => (r, st'', log ++ log')
        end
    | (Raised e, st', log) => (Raised e, st', log)
    end.
Definition raise {A} (e : exn) : M A := λ st, (Raised e, st, []).
Definition emit (ev : event) : M unit := λ st, (Done tt, st, [ev]).
Definition modify (f : session → session) : M unit := λ st, (Done tt, f st, []).

#[global] Instance M_ret : MRet M := @ret.
#[global] Instance M_bind : MBind M := @bind.

(** [d[key]] *)
Definition getitem (d : record) (key : string) : M text :=
  match d !! key with
  | Some v => ret v
  | None => raise (KeyError key)
  end.

(** [key in d] *)
Definition has_key (d : record) (key : string) : bool :=
  bool_decide (is_Some (d !! key)).

(** Truth value of a dict. *)
Definition truthy (d : record) : bool := bool_decide (d ≠ ∅).

Fixpoint for_each {A} (l : list A) (body : A → M unit) : M unit :=
  match l with
  | [] => ret tt
  | x :: l' => body x;; for_each l' body
  end.

(** Loop with an accumulator local to the function. *)
Fixpoint for_acc {A S} (l : list A) (acc : S) (body : S → A → M S) : M S :=
  match l with
  | [] => ret acc
  | x :: l' => acc' ← body acc x; for_acc l' acc' body
  end.

(** [bytes.decode('utf-8', errors='ignore')], the interpreter's decoder. *)
Class Codec := { utf8_decode_ignore : list N → text }.

Definition nl : text := [10].

(** [s.endswith(x)] *)
Definition endswith (s x : text) : bool :=
  bool_decide (drop (length s - length x) s = x).

Definition ascii_lower_char (c : char) : char :=
  if ascii_upper c then c + 32 else c.

(** ** The application *)

Section App.
Context `{UnicodeData} `{Codec}.
Variable w : world.

(** [str.lower]: on an ASCII string the letters A-Z move to a-z. *)
Definition lower (t : text) : text :=
  if forallb is_ascii t then ascii_lower_char <$> t else uni_lower t.

(** [state_mapping.get(code, "Unknown State")] *)
Definition state_mapping : gmap text text :=
  list_to_map
    [(text_of "1", text_of "New"); (text_of "2", text_of "In Progress");
     (text_of "3", text_of "On Hold"); (text_of "4", text_of "Awaiting Info");
     (text_of "5", text_of "Resolved"); (text_of "6", text_of "Closed");
     (text_of "7", text_of "Canceled")].
Definition state_name (code : text) : text :=
  default (text_of "Unknown State") (state_mapping !! code).

(** The shared shape of the four table and file getters: anything but
    status 200 is turned into the empty answer. *)
Definition fetch_incident_data (number : text) : M (option record) :=
  emit (EvHttp (GetIncident number));;
  let response := http_table w (GetIncident number) in
  if (status_code response =? 200)%Z then
    match json_result response with
    | None => raise JSONDecodeError
    | Some (Some (first :: _)) => mret (Some first)
    | Some _ => mret None
    end
  else mret None.

Definition fetch_incident_notes (incident_sys_id : text) : M (list record) :=
  emit (EvHttp (GetNotes incident_sys_id));;
  let response := http_table w (GetNotes incident_sys_id) in
  if (status_code response =? 200)%Z then
    match json_result response with
    | None => raise JSONDecodeError
    | Some (Some (first :: rest)) => mret (first :: rest)
    | Some _ => mret []
    end
  else mret [].

Definition fetch_attachments (incident_sys_id : text) : M (list record) :=
  emit (EvHttp (GetAttachments incident_sys_id));;
  let response := http_table w (GetAttachments incident_sys_id) in
  if (status_code response =? 200)%Z then
    match json_result response with
    | None => raise JSONDecodeError
    | Some (Some (first :: rest)) => mret (first :: rest)
    | Some _ => mret []
    end
  else mret [].

Definition fetch_attachment_data (attachment_sys_id : text)
    : M (option (list N)) :=
  emit (EvHttp (GetFile attachment_sys_id));;
  let response := http_file w attachment_sys_id in
  if (file_status response =? 200)%Z then mret (Some (content response))
  else mret None.

Definition error_prefix : text := text_of "An error occurred: ".

Definition summarize_text (t : text) (task : text) : M (option text) :=
  let prompt :=
    task ++ text_of " the following ticket notes:" ++ nl ++ nl ++ t
         ++ nl ++ nl ++ text_of "Result:" in
  emit (EvCompletion prompt);;
  match openai_completion w prompt with
  | inr result => mret (Some result)
  | inl e => emit (EvError (error_prefix ++ e));; mret None
  end.

Definition image_extensions : list text :=
  [text_of ".png"; text_of ".jpg"; text_of ".jpeg"; text_of ".gif";
   text_of ".bmp"; text_of ".tiff"].

Definition is_image (file_name : text) : bool :=
  existsb (endswith (lower file_name)) image_extensions.

Record attachment_summary := {
  summary_file_name : text;   (* "File Name" *)
  summary_text : option text  (* "Summary" *)
}.

(** The body of the loop, lines 127-137. *)
Definition attachment_turn (summaries : list attachment_summary)
    (attachment : record) : M (list attachment_summary) :=
  file_name ← getitem attachment "file_name";
  if negb (is_image file_name) then
    if has_key attachment "sys_id" then
      sys_id ← getitem attachment "sys_id";
      file_data ← fetch_attachment_data sys_id;
      match file_data with
      | Some (b :: bs) =>
          let file_content := utf8_decode_ignore (b :: bs) in
          summary ← summarize_text file_content (text_of "Summarize");
          name ← getitem attachment "file_name";
          mret (summaries ++
                [{| summary_file_name := name; summary_text := summary |}])
      | _ => mret summaries
      end
    else mret summaries
  else mret summaries.

Definition summarize_attachments (attachments : list record)
    : M (list attachment_summary) :=
  for_acc attachments [] attachment_turn.

Definition has_required_fields (note : record) : bool :=
  has_key note "element" && has_key note "sys_created_on"
  && has_key note "value".

(** Lines 145-146 and 172-173: the line for one note. *)
Definition note_line (note : record) : M text :=
  element ← getitem note "element";
  let note_type :=
    if bool_decide (element = text_of "work_notes")
    then text_of "Work Note" else text_of "Additional Comment" in
  created ← getitem note "sys_created_on";
  value ← getitem note "value";
  mret (note_type ++ text_of " (" ++ created ++ text_of "): " ++ value ++ nl).

Definition skip_notice : text := text_of "Skipping note due to missing fields:".

(** The loop of [summarize_incident], lines 142-149. *)
Definition combine_notes (incident_notes : list record) : M text :=
  for_acc incident_notes [] (λ combined_notes note,
    if has_required_fields note then
      note_content ← note_line note;
      mret (combined_notes ++ note_content)
    else
      emit (EvWrite skip_notice note);; mret combined_notes).

(** The loop of [fetch_detailed_resolution_steps], lines 169-174. *)
Definition combine_notes_for_resolution (incident_notes : list record)
    : M text :=
  for_acc incident_notes [] (λ combined_notes note,
    if has_required_fields note then
      note_content ← note_line note;
      mret (combined_notes ++ note_content)
    else mret combined_notes).

Record incident_summary := {
  sum_number : text;
  sum_description : text;
  sum_priority : text;
  sum_resolved_at : text;
  sum_opened_at : text;
  sum_state : text
}.

Definition summarize_incident (data : record) (incident_notes : list record)
    : M (incident_summary * option text) :=
  combined_notes ← combine_notes incident_notes;
  let cleaned_notes := redact_sensitive_info combined_notes in
  summarized ← summarize_text cleaned_notes (text_of "Summarize");
  number ← getitem data "number";
  description ← getitem data "description";
  priority ← getitem data "priority";
  resolved_at ← getitem data "resolved_at";
  opened_at ← getitem data "opened_at";
  state ← getitem data "state";
  mret ({| sum_number := number; sum_description := description;
           sum_priority := priority; sum_resolved_at := resolved_at;
           sum_opened_at := opened_at; sum_state := state_name state |},
        summarized).

(** The [try] block catches a missing ["number"] as it catches a failed
    call; [str(KeyError('number'))] is the quoted key. *)
Definition fetch_detailed_resolution_steps (data : record)
    (incident_notes : list record) : M (option text) :=
  combined_notes ← combine_notes_for_resolution incident_notes;
  let cleaned_notes := redact_sensitive_info combined_notes in
  match data !! "number" with
  | None => emit (EvError (error_prefix ++ text_of "'number'"));; mret None
  | Some number =>
      let prompt :=
        text_of "Provide detailed resolution steps for incident " ++ number
          ++ text_of ":" ++ nl ++ nl ++ cleaned_notes ++ nl ++ nl
          ++ text_of "Steps:" in
      emit (EvChat prompt);;
      match openai_chat w prompt with
      | inr steps => mret (Some steps)
      | inl e => emit (EvError (error_prefix ++ e));; mret None
      end
  end.

(** *** Button handlers

    [entered] is the value of the text input when the button is pressed. *)

Definition set_incident_number (v : option text) (st : session) : session :=
  {| incident_data := incident_data st; incident_notes := incident_notes st;
     summarized_notes := summarized_notes st;
     resolution_steps := resolution_steps st; incident_number := v |}.

(** Lines 216-230. *)
Definition on_summarize (entered : text) : M unit :=
  if bool_decide (entered ≠ []) then
    modify (set_incident_number (Some entered));;
    found ← fetch_incident_data entered;
    match found with
    | Some data =>
        if truthy data then
          sys_id ← getitem data "sys_id";
          notes ← fetch_incident_notes sys_id;
          r ← summarize_incident data notes;
          modify (λ st,
            {| incident_data := Some data; incident_notes := Some notes;
               summarized_notes := r.2; resolution_steps := None;
               incident_number := incident_number st |})
        else emit (EvError (text_of "Incident not found."))
    | None => emit (EvError (text_of "Incident not found."))
    end
  else mret tt.

(** Lines 232-239. *)
Definition on_clear : M unit :=
  modify (λ _,
    {| incident_data := None; incident_notes := None;
       summarized_notes := None; resolution_steps := None;
       incident_number := None |});;
  emit EvRerun.

Definition closed_states : list text := [text_of "6"; text_of "5"; text_of "7"].

Definition closed_notice : text :=
  text_of "Resolution steps are not available for Canceled or Closed or Resolved incidents.".

(** Lines 243-263. *)
Definition on_resolution_steps (entered : text) : M unit :=
  if bool_decide (entered ≠ []) then
    found ← fetch_incident_data entered;
    match found with
    | Some data =>
        if truthy data then
          state ← getitem data "state";
          if bool_decide (state ∈ closed_states) then
            emit (EvInfo closed_notice)
          else
            sys_id ← getitem data "sys_id";
            notes ← fetch_incident_notes sys_id;
            steps ← fetch_detailed_resolution_steps data notes;
            modify (λ st,
              {| incident_data := Some data; incident_notes := Some notes;
                 summarized_notes := summarized_notes st;
                 resolution_steps := steps;
                 incident_number := incident_number st |})
        else emit (EvError (text_of "Incident not found."))
    | None => emit (EvError (text_of "Incident not found."))
    end
  else emit (EvError (text_of "Please enter an incident number.")).
End App.

(** ** Vocabulary of the statements *)

(** The value a computation ends with, the session it leaves and its log. *)
Definition result_of {A} (r : outcome A * session * list event) : outcome A := r.1.1.
Definition session_of {A} (r : outcome A * session * list event) : session := r.1.2.
Definition log_of {A} (r : outcome A * session * list event) : list event := r.2.

Definition is_note_fetch (ev : event) : bool :=
  match ev with EvHttp (GetNotes _) => true | _ => false end.
Definition is_model_call (ev : event) : bool :=
  match ev with EvCompletion _ | EvChat _ => true | _ => false end.

(** The line the aggregator is to produce for a note with the given element,
    timestamp and value. *)
Definition labelled_line (element created value : text) : text :=
  (if bool_decide (element = text_of "work_notes")
   then text_of "Work Note" else text_of "Additional Comment")
  ++ text_of " (" ++ created ++ text_of "): " ++ value ++ nl.

Definition mk_note (element created value : text) : record :=
  {[ "element" := element; "sys_created_on" := created; "value" := value ]}.

(** The line of a note that has its three fields. *)
Definition line_of (note : record) : text :=
  match note !! "element", note !! "sys_created_on", note !! "value" with
  | Some e, Some c, Some v => labelled_line e c v
  | _, _, _ => []
  end.

(** A note without [value]. *)
Definition note_without_value : record :=
  {[ "element" := text_of "work_notes";
     "sys_created_on" := text_of "2024-05-01 09:00:00" ]}.

(** Example worlds: a ticketing backend that answers every table query with
    the given status and result list and every file download with the given
    status and bytes; the model echoes a fixed summary. *)
Definition const_world (status : Z) (result : option (option (list record)))
    (fstatus : Z) (bytes : list N) : world :=
  {| http_table := λ _, {| status_code := status; json_result := result |};
     http_file := λ _, {| file_status := fstatus; content := bytes |};
     openai_completion := λ _, inr (text_of "summary");
     openai_chat := λ _, inr (text_of "steps") |}.

Definition resolved_incident : record :=
  {[ "number" := text_of "INC0010001"; "sys_id" := text_of "abc123";
     "state" := text_of "6" ]}.

Definition loaded_session : session :=
  {| incident_data := Some resolved_incident; incident_notes := Some [];
     summarized_notes := Some (text_of "old summary");
     resolution_steps := Some (text_of "old steps");
     incident_number := Some (text_of "INC0010001") |}.

(** The prompt [summarize_text] builds for a task and a text. *)
Definition completion_prompt (task t : text) : text :=
  task ++ text_of " the following ticket notes:" ++ nl ++ nl ++ t
       ++ nl ++ nl ++ text_of "Result:".

(** An attachment reaches [summarize_text]: its name is not an image name, it
    has a [sys_id], and the download answers 200 with at least one byte. *)
Definition reaches_summarization `{UnicodeData} (w : world) (a : record) : bool :=
  match a !! "file_name", a !! "sys_id" with
  | Some name, Some id =>
      negb (is_image name)
      && (file_status (http_file w id) =? 200)%Z
      && negb (bool_decide (content (http_file w id) = []))
  | _, _ => false
  end.

(** ** The selection of attachments as the specification words it *)

(** The six extensions the specification lists. *)
Definition claimed_extensions : list text :=
  [text_of ".png"; text_of ".jpg"; text_of ".jpeg"; text_of ".gif";
   text_of ".bmp"; text_of ".tiff"].

(** Two characters that are equal, or the two cases of one ASCII letter. *)
Definition same_letter (c d : char) : Prop :=
  c = d ∨ (65 ≤ c ≤ 90 ∧ d = c + 32) ∨ (65 ≤ d ≤ 90 ∧ c = d + 32).

(** [name] ends with [ext] letter by letter, whatever the case. *)
Definition ends_with_letters (name ext : text) : Prop :=
  ∃ stem tail, name = stem ++ tail ∧ Forall2 same_letter tail ext.

(** [name] ends with [ext] once [str.lower] has put it in lower case. *)
Definition ends_ignoring_case `{UnicodeData} (name ext : text) : Prop :=
  ∃ stem, lower name = stem ++ ext.

Definition named_as_image `{UnicodeData} (name : text) : Prop :=
  ∃ ext, ext ∈ claimed_extensions ∧ ends_ignoring_case name ext.

(** The attachments that are to be summarized: not named as an image, with
    a [sys_id], downloaded with status 200 and at least one byte. *)
Definition selected_by_claim `{UnicodeData} (w : world) (a : record) : Prop :=
  ∃ name id,
    a !! "file_name" = Some name ∧ a !! "sys_id" = Some id
    ∧ ¬ named_as_image name
    ∧ file_status (http_file w id) = 200%Z
    ∧ content (http_file w id) ≠ [].

Definition not_image `{UnicodeData} (a : record) : bool :=
  match a !! "file_name" with
  | Some name => negb (is_image name)
  | None => false
  end.

Definition file_name_of (a : record) : text := default [] (a !! "file_name").

Definition file_bytes (w : world) (a : record) : list N :=
  match a !! "sys_id" with
  | Some id => content (http_file w id)
  | None => []
  end.

Definition mk_attachment (sys_id file_name : text) : record :=
  {[ "sys_id" := sys_id; "file_name" := file_name ]}.

(** The attachment list of the specification. *)
Definition four_files : list record :=
  [mk_attachment (text_of "1") (text_of "a.png");
   mk_attachment (text_of "2") (text_of "b.txt");
   mk_attachment (text_of "3") (text_of "c.JPG");
   mk_attachment (text_of "4") (text_of "d.log")].

(** A decoder for the examples: on bytes below 128 UTF-8 is the identity. *)
Definition ascii_codec : Codec := {| utf8_decode_ignore := λ bytes, bytes |}.

(** A backend that serves the listed files with status 200 and answers 404
    for any other attachment id. *)
Definition file_world (files : gmap text (list N)) : world :=
  {| http_table := λ _, {| status_code := 200; json_result := Some (Some []) |};
     http_file := λ id,
       match files !! id with
       | Some bytes => {| file_status := 200; content := bytes |}
       | None => {| file_status := 404; content := [] |}
       end;
     openai_completion := λ _, inr (text_of "summary");
     openai_chat := λ _, inr (text_of "steps") |}.

(** Every file of [four_files] is there and holds "hi". *)
Definition four_files_world : world :=
  file_world {[ text_of "1" := [104; 105]; text_of "2" := [104; 105];
                text_of "3" := [104; 105]; text_of "4" := [104; 105] ]}.

(** File 2 holds "hi", file 9 exists and is empty. *)
Definition empty_file_world : world :=
  file_world {[ text_of "2" := [104; 105]; text_of "9" := [] ]}.

(** ** Vocabulary of the further statements *)

Definition complete (note : record) : Prop := has_required_fields note = true.

(** The keys [summarize_incident] reads for the summary, in the order of the
    dictionary display, lines 157-162. *)
Definition summary_keys : list string :=
  ["number"; "description"; "priority"; "resolved_at"; "opened_at"; "state"].

(** The prompt [fetch_detailed_resolution_steps] builds. *)
Definition steps_prompt (number cleaned_notes : text) : text :=
  text_of "Provide detailed resolution steps for incident " ++ number
    ++ text_of ":" ++ nl ++ nl ++ cleaned_notes ++ nl ++ nl
    ++ text_of "Steps:".

(** What is handed to the model for a list of notes: the lines of the
    complete notes, redacted. *)
Definition cleaned_notes_of `{UnicodeData} (notes : list record) : text :=
  redact_sensitive_info (concat (line_of <$> filter complete notes)).

(** The value and the messages of a model call. *)
Definition reply_value (reply : text + text) : option text :=
  match reply with inr result => Some result | inl _ => None end.
Definition reply_errors (reply : text + text) : list event :=
  match reply with
  | inr _ => []
  | inl e => [EvError (text_of "An error occurred: " ++ e)]
  end.

(** A backend for the examples: one incident, its notes, and a model that
    answers every prompt. *)
Definition open_incident : record :=
  {[ "number" := text_of "INC0010002"; "sys_id" := text_of "def456";
     "description" := text_of "VPN drops"; "priority" := text_of "2";
     "resolved_at" := text_of ""; "opened_at" := text_of "2024-05-01 08:00:00";
     "state" := text_of "2" ]}.

Definition open_notes : list record :=
  [mk_note (text_of "work_notes") (text_of "2024-05-01 09:00:00")
     (text_of "User bob@example.com called from 5551234567");
   note_without_value].

Definition ticket_world : world :=
  {| http_table := λ r,
       match r with
       | GetIncident _ =>
           {| status_code := 200; json_result := Some (Some [open_incident]) |}
       | GetNotes _ =>
           {| status_code := 200; json_result := Some (Some open_notes) |}
       | _ => {| status_code := 200; json_result := Some (Some []) |}
       end;
     http_file := λ _, {| file_status := 404; content := [] |};
     openai_completion := λ _, inr (text_of "summary");
     openai_chat := λ _, inr (text_of "steps") |}.

(** The three buttons, lines 216, 233 and 243. *)
Inductive action := PressSummarize | PressClear | PressResolutionSteps.

Definition handle `{UnicodeData} (w : world) (entered : text) (a : action)
    : M unit :=
  match a with
  | PressSummarize => on_summarize w entered
  | PressClear => on_clear
  | PressResolutionSteps => on_resolution_steps w entered
  end.

(** The session after a series of button presses, each with the backend of
    its moment and the text entered then.  A handler that raises ends its run
    and leaves the session as it is at that point. *)
Fixpoint after_presses `{UnicodeData} (presses : list (world * text * action))
    (st : session) : session :=
  match presses with
  | [] => st
  | (w, entered, a) :: rest =>
      after_presses rest (session_of (handle w entered a st))
  end.

(** Either nothing is loaded, or the loaded incident is a non-empty record
    with a [sys_id] and comes with its notes. *)
Definition session_ok (st : session) : Prop :=
  match incident_data st with
  | None =>
      incident_notes st = None ∧ summarized_notes st = None
      ∧ resolution_steps st = None
  | Some data =>
      data ≠ ∅ ∧ is_Some (data !! "sys_id") ∧ is_Some (incident_notes st)
  end.

(** A backend whose incident query answers 200 with a body that is not
    JSON. *)
Definition html_world : world := const_world 200 None 200 [].

(** ** The page below the buttons, lines 266-299 *)

(** What the script draws there.  The title, the text input and the three
    buttons are drawn on every run and are left out. *)
Inductive widget :=
| WTable (row : incident_summary)
| WTextArea (label value : text)
| WText (msg : text)
| WDownload (label : text) (data : list N) (file_name : text).

(** A run of the script: like [M], with the widgets drawn kept in one
    sequence with the requests, model calls and messages. *)
Definition P (A : Type) : Type :=
  session → outcome A * session * list (event + widget).

Definition pret {A} (a : A) : P A := λ st, (Done a, st, []).
Definition pbind {A B} (f : A → P B) (m : P A) : P B :=
  λ st,
    match m st with
    | (Done a, st', out) =>
        match f a st' with
        | (r, st'', out') => (r, st'', out ++ out')
        end
    | (Raised e, st', out) => (Raised e, st', out)
    end.
Definition lift {A} (m : M A) : P A :=
  λ st, match m st with (r, st', log) => (r, st', inl <$> log) end.
Definition draw (x : widget) : P unit := λ st, (Done tt, st, [inr x]).
Definition read : P session := λ st, (Done st, st, []).

#[global] Instance P_ret : MRet P := @pret.
#[global] Instance P_bind : MBind P := @pbind.

Fixpoint pfor_each {A} (l : list A) (body : A → P unit) : P unit :=
  match l with
  | [] => mret tt
  | x :: l' => body x;; pfor_each l' body
  end.

(** [str(v)] of a string or [None]. *)
Definition py_str (v : option text) : text := default (text_of "None") v.

(** The dictionary [summarize_attachments] appends, lines 134-137. *)
Definition summary_dict (s : attachment_summary) : gmap string (option text) :=
  {[ "File Name" := Some (summary_file_name s); "Summary" := summary_text s ]}.

Section Page.
Context `{UnicodeData} `{Codec}.
Variable w : world.

(** Lines 267-282, on the values read from the session. *)
Definition incident_block (held : option record) (summary steps : option text)
    : P unit :=
  match held with
  | Some data =>
      if truthy data then
        number ← lift (getitem data "number");
        description ← lift (getitem data "description");
        priority ← lift (getitem data "priority");
        resolved_at ← lift (getitem data "resolved_at");
        opened_at ← lift (getitem data "opened_at");
        state ← lift (getitem data "state");
        draw (WTable
          {| sum_number := number; sum_description := description;
             sum_priority := priority; sum_resolved_at := resolved_at;
             sum_opened_at := opened_at; sum_state := state_name state |});;
        match summary with
        | Some (c :: t) =>
            draw (WTextArea (text_of "Summarized Incident Notes") (c :: t))
        | _ => mret tt
        end;;
        match steps with
        | Some (c :: t) => draw (WTextArea (text_of "Resolution Steps") (c :: t))
        | _ => mret tt
        end
      else mret tt
  | None => mret tt
  end.

(** Lines 291-297, for one summary. *)
Definition attachment_lines (s : attachment_summary) : P unit :=
  draw (WText (text_of "Filename: " ++ py_str (summary_dict s !!! "File Name")));;
  draw (WText (text_of "Summary: " ++ py_str (summary_dict s !!! "Summary")));;
  if bool_decide (is_Some (summary_dict s !! "sys_id")) then
    match summary_dict s !! "sys_id" with
    | Some id =>
        file_data ← lift (fetch_attachment_data w (py_str id));
        match file_data with
        | Some (b :: bs) =>
            draw (WDownload
                    (text_of "Download " ++ py_str (summary_dict s !!! "File Name"))
                    (b :: bs) (py_str (summary_dict s !!! "File Name")))
        | _ => mret tt
        end
    | None => lift (raise (KeyError "sys_id"))
    end
  else mret tt.

(** Lines 286-299, on the incident read from the session. *)
Definition attachments_block (held : option record) : P unit :=
  match held with
  | Some data =>
      if truthy data then
        sys_id ← lift (getitem data "sys_id");
        attachments ← lift (fetch_attachments w sys_id);
        match attachments with
        | _ :: _ =>
            draw (WText (text_of "Attachments:"));;
            attachment_summaries ← lift (summarize_attachments w attachments);
            pfor_each attachment_summaries attachment_lines
        | [] => draw (WText (text_of "No attachments found."))
        end
      else mret tt
  | None => mret tt
  end.

Definition show_page : P unit :=
  st ← read;
  incident_block (incident_data st) (summarized_notes st) (resolution_steps st);;
  st' ← read;
  attachments_block (incident_data st').

(** One run of the script with the button pressed, if any.  [st.rerun()]
    after Clear starts the script again with no button pressed, which comes
    to drawing the page. *)
Definition script (entered : text) (pressed : option action) : P unit :=
  match pressed with
  | Some a => lift (handle w entered a);; show_page
  | None => show_page
  end.
End Page.

Definition out_of {A} (r : outcome A * session * list (event + widget))
    : list (event + widget) := r.2.
Definition session_after {A} (r : outcome A * session * list (event + widget))
    : session := r.1.2.
Definition is_download (o : event + widget) : bool :=
  match o with inr (WDownload _ _ _) => true | _ => false end.

(** A computation that neither reads nor writes the session. *)
Definition oblivious {A} (m : M A) : Prop :=
  ∃ r log, ∀ st, m st = (r, st, log).
Definition poblivious {A} (m : P A) : Prop :=
  ∃ r out, ∀ st, m st = (r, st, out).

(** A run that draws no download button, whatever the session. *)
Definition no_download {A} (m : P A) : Prop :=
  ∀ st, Forall (λ o, is_download o = false) (out_of (m st)).

(** The two lines the page shows for a summary. *)
Definition summary_lines (s : attachment_summary) : list (event + widget) :=
  [inr (WText (text_of "Filename: " ++ summary_file_name s));
   inr (WText (text_of "Summary: " ++ py_str (summary_text s)))].

(** A session holding the example incident, and a backend with one text
    attachment for it. *)
Definition open_session : session :=
  {| incident_data := Some open_incident; incident_notes := Some open_notes;
     summarized_notes := Some (text_of "summary"); resolution_steps := None;
     incident_number := Some (text_of "INC0010002") |}.

Definition attachment_world : world :=
  {| http_table := λ r,
       match r with
       | GetAttachments _ =>
           {| status_code := 200;
              json_result :=
                Some (Some [mk_attachment (text_of "2") (text_of "b.txt")]) |}
       | _ => {| status_code := 404; json_result := None |}
       end;
     http_file := λ _, {| file_status := 200; content := [104; 105] |};
     openai_completion := λ _, inl (text_of "rate limit");
     openai_chat := λ _, inr (text_of "steps") |}.

(** The requests, model calls and messages among the output of a run. *)
Definition events_of (out : list (event + widget)) : list event :=
  omap (λ o, match o with inl ev => Some ev | inr _ => None end) out.

(** The keys the table of lines 268-275 reads from the incident. *)
Definition table_keys : list string :=
  ["number"; "description"; "priority"; "resolved_at"; "opened_at"; "state"].

(** A backend for a closed incident: the incident query answers with the
    resolved incident, the attachment query with one text file. *)
Definition closed_ticket_world : world :=
  {| http_table := λ r,
       match r with
       | GetIncident _ =>
           {| status_code := 200;
              json_result := Some (Some [resolved_incident]) |}
       | GetAttachments _ =>
           {| status_code := 200;
              json_result :=
                Some (Some [mk_attachment (text_of "2") (text_of "b.txt")]) |}
       | _ => {| status_code := 404; json_result := None |}
       end;
     http_file := λ _, {| file_status := 200; content := [104; 105] |};
     openai_completion := λ _, inr (text_of "summary");
     openai_chat := λ _, inr (text_of "steps") |}.

(** * Properties *)

(** ** The matcher *)

Lemma last_of_nil prev : last_of prev [] = prev.
Proof. reflexivity. Qed.

Lemma last_of_cons prev c w : last_of prev (c :: w) = last_of (Some c) w.
Proof.
  unfold last_of. destruct w as [|d w]; [done|].
  rewrite last_cons. by destruct (last (d :: w)).
Qed.

Lemma last_of_app prev w1 w2 : last_of prev (w1 ++ w2) = last_of (last_of prev w1) w2.
Proof.
  revert prev. induction w1 as [|c w1 IH]; intros prev; [done|].
  simpl. by rewrite !last_of_cons, IH.
Qed.

Lemma last_of_snoc prev w c : last_of prev (w ++ [c]) = Some c.
Proof. by rewrite last_of_app. Qed.

Section MatcherFacts.
Context `{UnicodeData}.

Lemma rep_sound cls lo hi k n prev s m :
  within hi n →
  rep cls lo hi k n prev s = Some m →
  ∃ w s' j, s = w ++ s' ∧ Forall (λ c, cls c = true) w
    ∧ (lo ≤ n + length w)%nat ∧ within hi (n + length w)
    ∧ k (last_of prev w) s' = Some j ∧ m = (length w + j)%nat.
Proof.
  revert n prev m.
  assert (∀ n prev m s0, within hi n →
    (if (lo <=? n)%nat then k prev s0 else None) = Some m →
    ∃ w s' j, s0 = w ++ s' ∧ Forall (λ c, cls c = true) w
      ∧ (lo ≤ n + length w)%nat ∧ within hi (n + length w)
      ∧ k (last_of prev w) s' = Some j ∧ m = (length w + j)%nat) as Hstop.
  { intros n prev m s0 Hhi Hk. destruct (lo <=? n)%nat eqn:Hlo; [|done].
    apply Nat.leb_le in Hlo. exists [], s0, m. simpl.
    rewrite Nat.add_0_r. repeat split; auto. }
  induction s as [|c s IH]; intros n prev m Hhi; simpl.
  - apply Hstop, Hhi.
  - destruct (cls c && under hi n) eqn:Hc; [|apply Hstop, Hhi].
    apply andb_true_iff in Hc as [Hc Hu].
    destruct (rep cls lo hi k (S n) (Some c) s) as [m'|] eqn:Hrec;
      [|apply Hstop, Hhi].
    intros [= <-].
    assert (within hi (S n)) as Hhi'.
    { destruct hi as [h|]; simpl in *; [|done]. apply Nat.ltb_lt in Hu. lia. }
    destruct (IH _ _ _ Hhi' Hrec) as (w & s' & j & -> & Hw & Hlo & Hup & Hk & ->).
    exists (c :: w), s', j. rewrite last_of_cons. simpl.
    rewrite Nat.add_succ_r in *. repeat split; auto.
Qed.

Lemma rep_complete cls lo hi k n prev w s' j :
  Forall (λ c, cls c = true) w →
  (lo ≤ n + length w)%nat → within hi (n + length w) →
  k (last_of prev w) s' = Some j →
  is_Some (rep cls lo hi k n prev (w ++ s')).
Proof.
  intros Hw. revert n prev. induction Hw as [|c w Hc Hw IH]; intros n prev Hlo Hhi Hk.
  - simpl in *. rewrite Nat.add_0_r in *.
    assert ((if (lo <=? n)%nat then k prev s' else None) = Some j) as Hstop.
    { by rewrite (proj2 (Nat.leb_le _ _) Hlo). }
    destruct s' as [|c s']; simpl; [by rewrite Hstop|].
    destruct (cls c && under hi n); [|by rewrite Hstop].
    destruct (rep cls lo hi k (S n) (Some c) s'); [done|by rewrite Hstop].
  - simpl in *. rewrite Nat.add_succ_r in *. rewrite last_of_cons in Hk.
    rewrite Hc. simpl.
    assert (under hi n = true) as ->.
    { destruct hi as [h|]; simpl in *; [|done]. apply Nat.ltb_lt. lia. }
    destruct (IH (S n) (Some c) Hlo Hhi Hk) as [m ->]. done.
Qed.

Lemma run_sound p prev s n : run p prev s = Some n → matches p prev s n.
Proof.
  revert prev s n. induction p as [|[|cls lo hi] p IH]; intros prev s n; simpl.
  - intros [= <-]. constructor.
  - destruct (at_boundary prev s) eqn:Hb; [|done]. intros Hr.
    constructor; auto.
  - intros Hr. apply rep_sound in Hr; [|by destruct hi; simpl; lia].
    destruct Hr as (w & s' & j & -> & Hw & Hlo & Hup & Hk & ->).
    constructor; auto.
Qed.

Lemma run_complete p prev s n : matches p prev s n → is_Some (run p prev s).
Proof.
  induction 1 as [prev s|p prev s n Hb _ IH|cls lo hi p prev w s n Hw Hlo Hhi _ IH]; simpl.
  - done.
  - by rewrite Hb.
  - destruct IH as [j Hj]. by eapply rep_complete.
Qed.

Lemma run_none p prev s : run p prev s = None → ∀ n, ¬ matches p prev s n.
Proof.
  intros Hr n Hm. apply run_complete in Hm as [m Hm]. congruence.
Qed.

(** A match reads a prefix of the string. *)
Lemma matches_length p prev s n : matches p prev s n → (n ≤ length s)%nat.
Proof.
  induction 1; simpl; [lia|done|]. rewrite length_app. lia.
Qed.

Lemma word_at_take (s s' : text) n :
  (0 < n)%nat → take n s = take n s' → word_at s = word_at s'.
Proof.
  destruct n as [|n]; [lia|]. intros _.
  destruct s as [|c s], s' as [|c' s']; simpl; try done. by intros [= -> _].
Qed.

Lemma word_before_last_of prev prev' (w : text) :
  word_before prev = word_before prev' →
  word_before (last_of prev w) = word_before (last_of prev' w).
Proof.
  intros Hp. unfold last_of. by destruct (last w).
Qed.

(** A match depends on its surroundings only through the word-ness of the
    two neighbours. *)
Lemma matches_local p prev s n prev' s' :
  matches p prev s n →
  word_before prev = word_before prev' →
  take n s = take n s' →
  word_at (drop n s) = word_at (drop n s') →
  matches p prev' s' n.
Proof.
  intros Hm. revert prev' s'.
  induction Hm as [prev s|p prev s n Hb _ IH|cls lo hi p prev w s n Hw Hlo Hhi _ IH];
    intros prev' s' Hp Ht Hd.
  - constructor.
  - constructor; [|by apply IH].
    unfold at_boundary in *. rewrite <- Hp.
    destruct n as [|n]; [rewrite !drop_0 in Hd; by rewrite <- Hd|].
    by rewrite <- (word_at_take s s' (S n)) by (auto; lia).
  - rewrite take_app_add in Ht.
    rewrite drop_app_add in Hd.
    assert (s' = w ++ drop (length w) s') as Hs'.
    { rewrite <- (take_drop (length w) s') at 1. f_equal.
      apply (f_equal (take (length w))) in Ht.
      rewrite take_app_length in Ht. rewrite take_take in Ht.
      by rewrite Nat.min_l in Ht by lia. }
    rewrite Hs'. constructor; auto. apply IH.
    + by apply word_before_last_of.
    + rewrite Hs' in Ht. rewrite take_app_add in Ht.
      by apply app_inv_head in Ht.
    + rewrite Hs' in Hd. by rewrite drop_app_add in Hd.
Qed.

(** *** Unfolding the scan *)

Lemma sub_from_skip p n prev s :
  (n ≤ length s)%nat →
  sub_from p n prev s = sub_from p 0 (last_of prev (take n s)) (drop n s).
Proof.
  revert n prev. induction s as [|c s IH]; intros n prev Hn.
  - simpl in Hn. by replace n with 0%nat by lia.
  - destruct n as [|n]; [done|]. simpl in Hn.
    cbn [sub_from take drop]. rewrite last_of_cons. apply IH. lia.
Qed.

Lemma sub_from_keep p prev c s :
  run p prev (c :: s) = None →
  sub_from p 0 prev (c :: s) = c :: sub_from p 0 (Some c) s.
Proof. intros Hr. cbn [sub_from]. by rewrite Hr. Qed.

Lemma sub_from_hit p prev m s :
  m ≠ [] → run p prev (m ++ s) = Some (length m) →
  sub_from p 0 prev (m ++ s) = token ++ sub_from p 0 (last_of prev m) s.
Proof.
  intros Hm Hr. destruct m as [|c m]; [done|].
  cbn [sub_from app]. cbn [app] in Hr. rewrite Hr. cbn [length].
  f_equal. rewrite sub_from_skip by (rewrite length_app; lia).
  rewrite take_app_length, drop_app_length. by rewrite last_of_cons.
Qed.

Lemma sub_from_quiet_in p prev w s :
  quiet_in p prev w s →
  sub_from p 0 prev (w ++ s) = w ++ sub_from p 0 (last_of prev w) s.
Proof.
  revert prev. induction w as [|c w IH]; intros prev; [done|].
  intros [Hr Hq]. cbn [app]. rewrite sub_from_keep by done.
  rewrite last_of_cons. f_equal. by apply IH.
Qed.

Lemma sub_from_quiet p prev s :
  run p prev [] ≠ Some 0%nat → (∀ c, run p (Some c) [] ≠ Some 0%nat) →
  quiet p prev s → sub_from p 0 prev s = s.
Proof.
  intros He He' Hq. unfold quiet in Hq.
  rewrite <- (app_nil_r s) at 1. rewrite sub_from_quiet_in by done.
  cbn [sub_from].
  destruct (run p (last_of prev s) []) as [[|n]|] eqn:Hr;
    try by rewrite app_nil_r.
  unfold last_of in Hr. destruct (last s); [by apply He' in Hr|by apply He in Hr].
Qed.

Lemma quiet_in_app p prev w1 w2 s :
  quiet_in p prev (w1 ++ w2) s ↔
  quiet_in p prev w1 (w2 ++ s) ∧ quiet_in p (last_of prev w1) w2 s.
Proof.
  revert prev. induction w1 as [|c w1 IH]; intros prev.
  - simpl. tauto.
  - cbn [app quiet_in]. rewrite last_of_cons, IH, <- app_assoc. tauto.
Qed.
End MatcherFacts.

Section PatternFacts.
Context `{UnicodeData}.

Lemma matches_min_len p prev s n : matches p prev s n → (min_len p ≤ n)%nat.
Proof. induction 1; simpl; lia. Qed.

Lemma matches_rejects p prev s n c :
  matches p prev s n → rejects p c → Forall (λ d, d ≠ c) (take n s).
Proof.
  induction 1 as [prev s|p prev s n Hb _ IH|cls lo hi p prev w s n Hw Hlo Hhi _ IH];
    intros Hrej.
  - by rewrite take_0.
  - apply IH. by inversion Hrej.
  - inversion Hrej as [|? ? Hcls Hrest]; subst.
    rewrite take_app_add. apply Forall_app. split; [|by apply IH].
    eapply Forall_impl; [exact Hw|]. intros d Hd ->. congruence.
Qed.

Lemma matches_head_bnd p prev s n :
  matches (Bnd :: p) prev s n → at_boundary prev s = true.
Proof. by inversion 1. Qed.

Lemma matches_last_bnd p prev s n :
  matches p prev s n → last p = Some Bnd →
  at_boundary (last_of prev (take n s)) (drop n s) = true.
Proof.
  induction 1 as [prev s|p prev s n Hb Hm IH|cls lo hi p prev w s n Hw Hlo Hhi Hm IH];
    intros Hlast.
  - done.
  - destruct p as [|a p].
    + inversion Hm; subst. by rewrite take_0, drop_0.
    + apply IH. by rewrite last_cons_cons in Hlast.
  - destruct p as [|a p]; [done|]. rewrite last_cons_cons in Hlast.
    rewrite take_app_add, drop_app_add, last_of_app. by apply IH.
Qed.

Lemma fenced_intro p :
  head p = Some Bnd → last p = Some Bnd → (0 < min_len p)%nat →
  rejects p 91 → fenced p.
Proof.
  intros Hhead Hlast Hmin Hrej prev s n Hm. repeat split.
  - apply matches_min_len in Hm. lia.
  - destruct p as [|[|] p]; try done. by eapply matches_head_bnd.
  - by apply matches_last_bnd with p.
  - by eapply matches_rejects.
Qed.

Lemma fenced_email : fenced pat_email.
Proof. apply fenced_intro; try done; [simpl; lia|repeat constructor]. Qed.

Lemma fenced_phone : fenced pat_phone.
Proof. apply fenced_intro; try done; [simpl; lia|repeat constructor]. Qed.

Lemma fenced_ssn : fenced pat_ssn.
Proof. apply fenced_intro; try done; [simpl; lia|repeat constructor]. Qed.

(** No match starts inside a token, whatever follows it. *)
Lemma token_quiet_email prev s : quiet_in pat_email prev token s.
Proof.
  split.
  - cbn [app token]. unfold pat_email. cbn [run].
    destruct (at_boundary prev _); reflexivity.
  - repeat split; reflexivity.
Qed.

Lemma token_quiet_phone prev s : quiet_in pat_phone prev token s.
Proof.
  split.
  - cbn [app token]. unfold pat_phone. cbn [run].
    destruct (at_boundary prev _); reflexivity.
  - repeat split; reflexivity.
Qed.

Lemma token_quiet_ssn prev s : quiet_in pat_ssn prev token s.
Proof.
  split.
  - cbn [app token]. unfold pat_ssn. cbn [run].
    destruct (at_boundary prev _); reflexivity.
  - repeat split; reflexivity.
Qed.

Lemma fenced_pat k : fenced (pat k).
Proof. destruct k; [apply fenced_email|apply fenced_phone|apply fenced_ssn]. Qed.

Lemma token_quiet k prev s : quiet_in (pat k) prev token s.
Proof.
  destruct k; [apply token_quiet_email|apply token_quiet_phone|apply token_quiet_ssn].
Qed.

Lemma run_productive k prev s : run (pat k) prev s ≠ Some 0%nat.
Proof.
  intros Hr. apply run_sound, fenced_pat in Hr. lia.
Qed.
End PatternFacts.

(** ** Pieces *)

Lemma flat_app pcs1 pcs2 : flat (pcs1 ++ pcs2) = flat pcs1 ++ flat pcs2.
Proof.
  induction pcs1 as [|[c|k m] pcs1 IH]; simpl; [done|by rewrite IH|].
  by rewrite IH, app_assoc.
Qed.

Lemma flat_keeps (m : text) : flat (Keep <$> m) = m.
Proof.
  induction m as [|c m IH]; [done|]. rewrite fmap_cons. cbn [flat]. by rewrite IH.
Qed.

Lemma flat_settle sel pcs : flat (settle sel pcs) = flat pcs.
Proof.
  induction pcs as [|[c|k m] pcs IH]; cbn [settle flat]; [done|by rewrite IH|].
  rewrite flat_app, IH. destruct (sel k); [cbn [flat]; by rewrite app_nil_r|].
  by rewrite flat_keeps.
Qed.

Lemma render_keeps (m : text) (pcs : list piece) :
  render ((Keep <$> m) ++ pcs) = m ++ render pcs.
Proof.
  induction m as [|c m IH]; [done|].
  rewrite fmap_cons. unfold render in *. cbn [app render_sel]. by rewrite IH.
Qed.

Lemma render_settle sel pcs : render (settle sel pcs) = render_sel sel pcs.
Proof.
  induction pcs as [|[c|k m] pcs IH]; cbn [settle render_sel]; [done| |].
  - unfold render in *. cbn [render_sel]. by rewrite IH.
  - destruct (sel k).
    + unfold render in *. cbn [app render_sel]. by rewrite IH.
    + by rewrite render_keeps, IH.
Qed.

Lemma render_sel_none pcs : render_sel (λ _, false) pcs = flat pcs.
Proof. induction pcs as [|[c|k m] pcs IH]; simpl; by rewrite ?IH. Qed.

Section Scan.
Context `{UnicodeData}.

Lemma last_of_nonempty prev prev' (w : text) : w ≠ [] → last_of prev w = last_of prev' w.
Proof.
  intros Hw. unfold last_of. destruct (last w) eqn:Hl; [done|].
  by apply last_None in Hl.
Qed.

(** The scan of a text, as pieces. *)
Lemma scan_exists k (s : text) prev :
  ∃ pcs, flat pcs = s ∧ scanned k prev pcs
         ∧ sub_from (pat k) 0 prev s = render pcs.
Proof.
  remember (length s) as len eqn:Hlen.
  revert s prev Hlen. induction len as [len IH] using lt_wf_ind.
  intros s prev Hlen. destruct s as [|c s].
  - exists []. repeat split; [constructor|]. cbn [sub_from].
    destruct (run (pat k) prev []) as [[|n]|] eqn:Hr; try done.
    by apply run_productive in Hr.
  - destruct (run (pat k) prev (c :: s)) as [n|] eqn:Hr.
    + pose proof (run_sound _ _ _ _ Hr) as Hm.
      pose proof (matches_length _ _ _ _ Hm) as Hn.
      destruct (fenced_pat k _ _ _ Hm) as (Hpos & _).
      destruct (IH (length (drop n (c :: s)))
                  ltac:(rewrite length_drop; simpl in *; lia)
                  (drop n (c :: s))
                  (last_of prev (take n (c :: s))) eq_refl)
        as (rest & Hflat & Hscan & Hsub).
      assert (take n (c :: s) ≠ []) as Hne.
      { destruct n; [lia|done]. }
      assert (length (take n (c :: s)) = n) as Hlen'.
      { rewrite length_take. lia. }
      exists (Hit k (take n (c :: s)) :: rest). split; [|split].
      * simpl. by rewrite Hflat, take_drop.
      * constructor; [done| |done].
        by rewrite Hflat, take_drop, Hlen'.
      * rewrite <- (take_drop n (c :: s)) at 1.
        rewrite sub_from_hit; [|done|by rewrite take_drop, Hlen'].
        rewrite Hsub. reflexivity.
    + destruct (IH (length s) ltac:(simpl in *; lia) s (Some c) eq_refl)
        as (rest & Hflat & Hscan & Hsub).
      exists (Keep c :: rest). split; [|split].
      * simpl. by rewrite Hflat.
      * constructor; [by rewrite Hflat|done].
      * rewrite sub_from_keep by done. rewrite Hsub. reflexivity.
Qed.

Lemma scanned_fenced k prev pcs : scanned k prev pcs → hits_fenced prev pcs.
Proof.
  induction 1 as [prev|prev c rest Hr _ IH|prev m rest Hne Hr _ IH];
    constructor; auto.
  - apply run_sound, fenced_pat in Hr. tauto.
  - apply run_sound, fenced_pat in Hr. destruct Hr as (_ & _ & Hb & _).
    by rewrite take_app_length, drop_app_length in Hb.
Qed.

Lemma scanned_quiet k prev pcs : scanned k prev pcs → keeps_quiet (pat k) prev pcs.
Proof. induction 1; constructor; auto. Qed.

Lemma quiet_keeps_quiet q prev pcs :
  quiet q prev (flat pcs) → keeps_quiet q prev pcs.
Proof.
  revert prev. induction pcs as [|[c|k m] pcs IH]; intros prev Hq.
  - constructor.
  - destruct Hq as [Hr Hq]. rewrite app_nil_r in Hr. constructor; auto.
  - constructor. apply IH. unfold quiet in *. simpl in Hq.
    apply quiet_in_app in Hq. tauto.
Qed.

(** The first [n] characters of the replaced text, when free of the opening
    bracket and ended by a boundary, are the first [n] of the original, and
    the next character is a word character in both or in neither. *)
Lemma replaced_prefix prev pcs n :
  hits_fenced prev pcs →
  Forall (λ c, c ≠ 91) (take n (render pcs)) →
  at_boundary (last_of prev (take n (render pcs))) (drop n (render pcs)) = true →
  take n (render pcs) = take n (flat pcs)
  ∧ word_at (drop n (render pcs)) = word_at (drop n (flat pcs)).
Proof.
  intros Hf. revert n.
  induction Hf as [prev|prev c rest _ IH|prev k m rest Hne Hb1 Hb2 _ IH];
    intros n Hall Hend.
  - unfold render. cbn [render_sel flat]. by rewrite !take_nil, !drop_nil.
  - destruct n as [|n]; [done|].
    unfold render in *. cbn [render_sel flat take drop] in *.
    rewrite last_of_cons in Hend. inversion Hall; subst.
    destruct (IH n) as [Ht Hd]; [done|done|]. by rewrite Ht.
  - unfold render in *. cbn [render_sel flat] in *.
    destruct n as [|n].
    + rewrite !drop_0, !take_0. split; [done|].
      rewrite take_0, drop_0 in Hend. cbn in Hend.
      unfold at_boundary in *. cbn in Hend.
      destruct (word_before prev); [|done]. simpl in Hb1.
      cbn. by destruct (word_at (m ++ flat rest)).
    + cbn in Hall. inversion Hall; subst. done.
Qed.

Lemma matches_replaced q prev prev' pcs n :
  fenced q → hits_fenced prev pcs → ctx prev prev' (flat pcs) →
  matches q prev' (render pcs) n → matches q prev (flat pcs) n.
Proof.
  intros Hq Hf Hctx Hm.
  destruct (Hq _ _ _ Hm) as (Hpos & Hb1 & Hb2 & Hall).
  pose proof (matches_length _ _ _ _ Hm) as Hn.
  assert (take n (render pcs) ≠ []) as Hne.
  { intros Ht. apply (f_equal length) in Ht. rewrite length_take in Ht.
    simpl in Ht. lia. }
  rewrite (last_of_nonempty prev' prev) in Hb2 by done.
  destruct (replaced_prefix prev pcs n Hf Hall Hb2) as [Ht Hd].
  apply (matches_local q prev' (render pcs)); [done| |done|done].
  destruct Hctx as [->|[-> Hb]]; [done|].
  unfold at_boundary in *. rewrite (word_at_take _ _ n Hpos Ht) in Hb1.
  cbn in Hb1. rewrite Hb1 in Hb. cbn. by destruct (word_before prev).
Qed.

(** Replacing fenced stretches creates no match of [q] when [q] matched at
    no kept character before. *)
Lemma render_quiet q prev prev' pcs :
  fenced q → (∀ prev s, quiet_in q prev token s) →
  hits_fenced prev pcs → keeps_quiet q prev pcs →
  ctx prev prev' (flat pcs) →
  quiet q prev' (render pcs).
Proof.
  intros Hq Htok Hf. revert prev'.
  induction Hf as [prev|prev c rest Hf IH|prev k m rest Hne Hb1 Hb2 Hf IH];
    intros prev' Hk Hctx.
  - done.
  - inversion Hk as [|? ? ? Hr Hk'|]; subst. split.
    + rewrite app_nil_r.
      destruct (run q prev' (render (Keep c :: rest))) as [n|] eqn:Hrun; [|done].
      apply run_sound in Hrun.
      apply (matches_replaced q prev prev' (Keep c :: rest)) in Hrun;
        [|done|by constructor|done].
      apply run_complete in Hrun as [j Hj]. simpl in Hj. congruence.
    + apply (IH (Some c)); [done|by left].
  - inversion Hk as [| |? ? ? ? Hk']; subst.
    unfold quiet, render. cbn [render_sel].
    apply quiet_in_app. split; [apply Htok|].
    apply (IH (Some 93)); [done|]. right. done.
Qed.
End Scan.

Section Idempotence.
Context `{UnicodeData}.

(** After a pass no position matches the pattern of the pass. *)
Lemma re_sub_quiet_own k (s : text) : quiet (pat k) None (re_sub (pat k) s).
Proof.
  unfold re_sub.
  destruct (scan_exists k s None) as (pcs & Hflat & Hscan & ->).
  apply (render_quiet (pat k) None None pcs).
  - apply fenced_pat.
  - apply token_quiet.
  - by eapply scanned_fenced.
  - by apply scanned_quiet.
  - by left.
Qed.

(** A pass creates no match of a pattern that matched nowhere before. *)
Lemma re_sub_quiet_other k j (s : text) :
  quiet (pat j) None s → quiet (pat j) None (re_sub (pat k) s).
Proof.
  intros Hq. unfold re_sub.
  destruct (scan_exists k s None) as (pcs & Hflat & Hscan & ->).
  apply (render_quiet (pat j) None None pcs).
  - apply fenced_pat.
  - apply token_quiet.
  - by eapply scanned_fenced.
  - apply quiet_keeps_quiet. by rewrite Hflat.
  - by left.
Qed.

Lemma re_sub_quiet k (s : text) : quiet (pat k) None s → re_sub (pat k) s = s.
Proof.
  intros Hq. apply sub_from_quiet; [apply run_productive| |done].
  intros c. apply run_productive.
Qed.

Lemma redact_passes (t : text) :
  redact_sensitive_info t = re_sub pat_ssn (re_sub pat_phone (re_sub pat_email t)).
Proof. reflexivity. Qed.

(** C9. Redacting a redacted text changes nothing. *)
Theorem redact_idempotent (t : text) :
  redact_sensitive_info (redact_sensitive_info t) = redact_sensitive_info t.
Proof.
  rewrite (redact_passes (redact_sensitive_info t)).
  rewrite (redact_passes t).
  set (t1 := re_sub pat_email t).
  set (t2 := re_sub pat_phone t1).
  set (t3 := re_sub pat_ssn t2).
  assert (quiet (pat Email) None t1) as He1 by apply (re_sub_quiet_own Email).
  assert (quiet (pat Email) None t2) as He2 by by apply (re_sub_quiet_other Phone Email).
  assert (quiet (pat Email) None t3) as He3 by by apply (re_sub_quiet_other Ssn Email).
  assert (quiet (pat Phone) None t2) as Hp2 by apply (re_sub_quiet_own Phone).
  assert (quiet (pat Phone) None t3) as Hp3 by by apply (re_sub_quiet_other Ssn Phone).
  assert (quiet (pat Ssn) None t3) as Hs3 by apply (re_sub_quiet_own Ssn).
  change (re_sub (pat Ssn) (re_sub (pat Phone) (re_sub (pat Email) t3)) = t3).
  rewrite (re_sub_quiet Email t3 He3).
  rewrite (re_sub_quiet Phone t3 Hp3).
  by rewrite (re_sub_quiet Ssn t3 Hs3).
Qed.
End Idempotence.

(** ** Shape of the matches *)

Section Shapes.
Context `{UnicodeData}.

Lemma is_digit_word c : is_digit c = true → is_word c = true.
Proof.
  unfold is_digit, is_word, ascii_alnum. destruct (is_ascii c).
  - intros ->. by rewrite !orb_true_r.
  - by intros ->.
Qed.

Lemma ascii_digit_local c :
  is_ascii c = true → is_digit c = true → cls_local c = true.
Proof.
  unfold is_digit, cls_local, ascii_alnum. intros -> ->.
  by rewrite !orb_true_r.
Qed.

Lemma matches_exact cls k p prev s n :
  matches (Rep cls k (Some k) :: p) prev s n →
  ∃ w s0 n0, s = w ++ s0 ∧ length w = k ∧ Forall (λ c, cls c = true) w
    ∧ n = (k + n0)%nat ∧ matches p (last_of prev w) s0 n0.
Proof.
  inversion 1 as [| |? ? ? ? ? w s0 n0 Hw Hlo Hhi Hm]; subst.
  simpl in Hhi. exists w, s0, n0.
  assert (length w = k) as Hk by lia. by rewrite Hk.
Qed.

Lemma matches_lit c p prev s n :
  matches (Lit c :: p) prev s n →
  ∃ s0 n0, s = c :: s0 ∧ n = S n0 ∧ matches p (Some c) s0 n0.
Proof.
  intros Hm. apply matches_exact in Hm as (w & s0 & n0 & -> & Hlen & Hw & -> & Hm).
  destruct w as [|d [|]]; try done.
  inversion Hw as [|? ? Hd _]; subst. apply N.eqb_eq in Hd as <-.
  by exists s0, n0.
Qed.

Lemma matches_end prev s n :
  matches [Bnd] prev s n → n = 0%nat ∧ at_boundary prev s = true.
Proof.
  inversion 1 as [|? ? ? ? Hb Hm|]; subst. by inversion Hm.
Qed.

Lemma matches_phone prev s n :
  matches pat_phone prev s n →
  ∃ w rest, s = w ++ rest ∧ length w = 10%nat ∧ n = 10%nat
    ∧ Forall (λ c, is_digit c = true) w.
Proof.
  inversion 1 as [|? ? ? ? Hb Hm|]; subst.
  apply matches_exact in Hm as (w & s0 & n0 & -> & Hlen & Hw & -> & Hm).
  apply matches_end in Hm as [-> _]. by exists w, s0.
Qed.

Lemma matches_ssn prev s n :
  matches pat_ssn prev s n →
  ∃ a0 a1 a2 b0 b1 c0 c1 c2 c3 rest,
    s = [a0; a1; a2; 45; b0; b1; 45; c0; c1; c2; c3] ++ rest ∧ n = 11%nat
    ∧ Forall (λ c, is_digit c = true) [a0; a1; a2; b0; b1; c0; c1; c2; c3].
Proof.
  inversion 1 as [|? ? ? ? Hb Hm|]; subst.
  apply matches_exact in Hm as (a & s0 & n0 & -> & Hla & Ha & -> & Hm).
  apply matches_lit in Hm as (s1 & n1 & -> & -> & Hm).
  apply matches_exact in Hm as (b & s2 & n2 & -> & Hlb & Hb' & -> & Hm).
  apply matches_lit in Hm as (s3 & n3 & -> & -> & Hm).
  apply matches_exact in Hm as (c & s4 & n4 & -> & Hlc & Hc & -> & Hm).
  apply matches_end in Hm as [-> _].
  destruct a as [|a0 [|a1 [|a2 [|]]]]; try done.
  destruct b as [|b0 [|b1 [|]]]; try done.
  destruct c as [|c0 [|c1 [|c2 [|c3 [|]]]]]; try done.
  exists a0, a1, a2, b0, b1, c0, c1, c2, c3, s4. repeat split.
  inversion Ha as [|? ? ? Ha1]; subst. inversion Ha1 as [|? ? ? Ha2]; subst.
  inversion Ha2; subst.
  inversion Hb' as [|? ? ? Hb1]; subst. inversion Hb1; subst.
  inversion Hc as [|? ? ? Hc1]; subst. inversion Hc1 as [|? ? ? Hc2]; subst.
  inversion Hc2 as [|? ? ? Hc3]; subst. inversion Hc3; subst.
  repeat constructor; done.
Qed.

(** An e-mail match can be extended to the left over characters of the
    local-part class, up to a boundary. *)
Lemma matches_email_extend prev prev0 (pre s : text) n :
  matches pat_email prev0 s n →
  Forall (λ c, cls_local c = true) pre →
  at_boundary prev (pre ++ s) = true →
  matches pat_email prev (pre ++ s) (length pre + n).
Proof.
  intros Hm Hpre Hb.
  inversion Hm as [|? ? ? ? Hb0 Hm1|]; subst.
  inversion Hm1 as [| |? ? ? ? ? w s0 n0 Hw Hlo Hhi Hm2]; subst.
  constructor; [done|].
  rewrite app_assoc, Nat.add_assoc, <- length_app.
  constructor.
  - by apply Forall_app.
  - rewrite length_app. lia.
  - done.
  - rewrite last_of_app.
    rewrite (last_of_nonempty _ prev0); [done|].
    destruct w; [simpl in Hlo; lia|done].
Qed.
End Shapes.

(** ** The three passes against the occurrences in the input *)

Section Passes.
Context `{UnicodeData}.

Lemma occurrences_fenced prev pcs : occurrences prev pcs → hits_fenced prev pcs.
Proof.
  induction 1 as [prev|prev c rest Hr _ IH|prev k m rest Hne Hr _ _ IH];
    constructor; auto.
  - apply run_sound, fenced_pat in Hr. tauto.
  - apply run_sound, fenced_pat in Hr. destruct Hr as (_ & _ & Hb & _).
    by rewrite take_app_length, drop_app_length in Hb.
Qed.

(** Every text has such a cut. *)
Lemma occurrences_exist (s : text) prev :
  ∃ pcs, flat pcs = s ∧ occurrences prev pcs.
Proof.
  remember (length s) as len eqn:Hlen.
  revert s prev Hlen. induction len as [len IH] using lt_wf_ind.
  intros s prev Hlen. destruct s as [|c s]; [exists []; split; [done|constructor]|].
  assert (∀ k n, run (pat k) prev (c :: s) = Some n →
            (∀ j, before k j = true → run (pat j) prev (c :: s) = None) →
            ∃ pcs, flat pcs = c :: s ∧ occurrences prev pcs) as Hhit.
  { intros k n Hr Hearlier.
    pose proof (run_sound _ _ _ _ Hr) as Hm.
    pose proof (matches_length _ _ _ _ Hm) as Hn.
    destruct (fenced_pat k _ _ _ Hm) as (Hpos & _).
    destruct (IH (length (drop n (c :: s)))
                ltac:(rewrite length_drop; simpl in *; lia)
                (drop n (c :: s))
                (last_of prev (take n (c :: s))) eq_refl)
      as (rest & Hflat & Hocc).
    assert (length (take n (c :: s)) = n) as Hlen'.
    { rewrite length_take. lia. }
    exists (Hit k (take n (c :: s)) :: rest). split.
    - simpl. by rewrite Hflat, take_drop.
    - constructor; [by destruct n; [lia|]| | |done];
        rewrite Hflat, take_drop; [by rewrite Hlen'|done]. }
  destruct (run (pat Email) prev (c :: s)) as [n|] eqn:He.
  { apply (Hhit Email n He). intros [] Hj; done. }
  destruct (run (pat Phone) prev (c :: s)) as [n|] eqn:Hp.
  { apply (Hhit Phone n Hp). intros [] Hj; done. }
  destruct (run (pat Ssn) prev (c :: s)) as [n|] eqn:Hs.
  { apply (Hhit Ssn n Hs). intros [] Hj; done. }
  destruct (IH (length s) ltac:(simpl in *; lia) s (Some c) eq_refl)
    as (rest & Hflat & Hocc).
  exists (Keep c :: rest). split; [simpl; by rewrite Hflat|].
  constructor; [|done]. rewrite Hflat. by intros [].
Qed.

Lemma hits_fenced_keeps prev (m : text) rest :
  hits_fenced (last_of prev m) rest → hits_fenced prev ((Keep <$> m) ++ rest).
Proof.
  revert prev. induction m as [|c m IH]; intros prev Hf; [done|].
  rewrite fmap_cons. cbn [app]. constructor. apply IH.
  by rewrite last_of_cons in Hf.
Qed.

Lemma hits_fenced_settle sel prev pcs :
  hits_fenced prev pcs → hits_fenced prev (settle sel pcs).
Proof.
  induction 1 as [prev|prev c rest _ IH|prev k m rest Hne Hb1 Hb2 _ IH];
    cbn [settle].
  - constructor.
  - by constructor.
  - destruct (sel k).
    + cbn [app]. constructor; by rewrite ?flat_settle.
    + by apply hits_fenced_keeps.
Qed.

(** Where the original text has no match, the partly replaced text has
    none either. *)
Lemma run_replaced_none q sel prev prev' pcs :
  fenced q → hits_fenced prev pcs → ctx prev prev' (flat pcs) →
  run q prev (flat pcs) = None →
  run q prev' (render_sel sel pcs) = None.
Proof.
  intros Hq Hf Hctx Hnone.
  destruct (run q prev' (render_sel sel pcs)) as [n|] eqn:Hr; [|done].
  apply run_sound in Hr. rewrite <- render_settle in Hr.
  apply (matches_replaced q prev prev') in Hr;
    [|done|by apply hits_fenced_settle|by rewrite flat_settle].
  rewrite flat_settle in Hr. apply run_complete in Hr as [j Hj]. congruence.
Qed.

Lemma word_at_render_sel sel prev pcs :
  hits_fenced prev pcs → word_at (flat pcs) = false →
  word_at (render_sel sel pcs) = false.
Proof.
  destruct 1 as [prev|prev c rest _|prev k m rest Hne _ _ _]; [done|done|].
  cbn [flat render_sel]. destruct (sel k); [done|].
  destruct m; [done|]. done.
Qed.

Lemma matches_numeric q prev s n :
  q ≠ Email → matches (pat q) prev s n →
  word_at s = true ∧ word_before (last_of prev (take n s)) = true
  ∧ n = match q with Phone => 10%nat | _ => 11%nat end.
Proof.
  intros Hq Hm. destruct q; [done| |].
  - apply matches_phone in Hm as (w & rest & -> & Hlen & -> & Hw).
    rewrite take_app_length' by done.
    do 10 (destruct w as [|? w]; [done|]). destruct w; [|done].
    repeat match goal with
           | Hall : Forall _ (_ :: _) |- _ => inversion Hall; clear Hall; subst
           end.
    repeat split; cbn; by apply is_digit_word.
  - apply matches_ssn in Hm
      as (a0 & a1 & a2 & b0 & b1 & c0 & c1 & c2 & c3 & rest & -> & -> & Hd).
    repeat match goal with
           | Hall : Forall _ (_ :: _) |- _ => inversion Hall; clear Hall; subst
           end.
    repeat split; cbn; by apply is_digit_word.
Qed.

(** A phone or SSN occurrence of the original text is still matched, with
    the same length, once earlier occurrences around it are replaced. *)
Lemma run_hit_survives q prev prev' (m s X : text) :
  q ≠ Email → m ≠ [] →
  run (pat q) prev (m ++ s) = Some (length m) →
  ctx prev prev' (m ++ s) →
  word_at X = word_at s →
  run (pat q) prev' (m ++ X) = Some (length m).
Proof.
  intros Hq Hne Hr Hctx HX.
  apply run_sound in Hr.
  destruct (matches_numeric q _ _ _ Hq Hr) as (Hw & _ & Hlen).
  assert (matches (pat q) prev' (m ++ X) (length m)) as Hm.
  { apply (matches_local _ prev (m ++ s)); [done| | |].
    - destruct Hctx as [->|[-> Hb]]; [done|].
      unfold at_boundary in Hb. rewrite Hw in Hb. cbn.
      by destruct (word_before prev).
    - by rewrite !take_app_length.
    - by rewrite !drop_app_length. }
  apply run_complete in Hm as [j Hj]. rewrite Hj. f_equal.
  apply run_sound in Hj.
  destruct (matches_numeric q _ _ _ Hq Hj) as (_ & _ & ->). done.
Qed.

Lemma sub_from_token q prev (X : text) :
  sub_from (pat q) 0 prev (token ++ X) = token ++ sub_from (pat q) 0 (Some 93) X.
Proof. rewrite sub_from_quiet_in by apply token_quiet. done. Qed.

(** Where the e-mail pattern fails at a boundary, it fails at every position
    of a following run of local-part characters. *)
Lemma email_quiet_run prev (pre m X : text) :
  Forall (λ c, cls_local c = true) (pre ++ m) →
  at_boundary prev (pre ++ m ++ X) = true →
  run pat_email prev (pre ++ m ++ X) = None →
  quiet_in pat_email (last_of prev pre) m X.
Proof.
  revert pre. induction m as [|c m IH]; intros pre Hall Hb Hnone; [done|].
  split.
  - destruct (run pat_email (last_of prev pre) ((c :: m) ++ X)) as [n|] eqn:Hr;
      [|done].
    apply run_sound in Hr.
    apply (matches_email_extend prev _ pre) in Hr; [|by apply Forall_app in Hall as []|done].
    apply run_complete in Hr as [j Hj]. congruence.
  - specialize (IH (pre ++ [c])). rewrite last_of_snoc in IH.
    rewrite <- !app_assoc in IH. by apply IH.
Qed.

Lemma email_quiet_in prev (m X : text) :
  Forall (λ c, cls_local c = true) m →
  at_boundary prev (m ++ X) = true →
  run pat_email prev (m ++ X) = None →
  quiet_in pat_email prev m X.
Proof. intros. by apply (email_quiet_run prev []). Qed.

(** A phone or SSN occurrence whose decimal digits are ASCII digits consists
    of local-part characters. *)
Lemma numeric_local q prev (m s : text) :
  q ≠ Email → run (pat q) prev (m ++ s) = Some (length m) →
  Forall (λ c, is_digit c = true → is_ascii c = true) m →
  Forall (λ c, cls_local c = true) m.
Proof.
  intros Hq Hr Hascii. apply run_sound in Hr. destruct q; [done| |].
  - apply matches_phone in Hr as (w & rest & Heq & Hlen & Hm & Hw).
    apply app_inj_1 in Heq as [-> _]; [|lia].
    rewrite Forall_forall in *. intros c Hc. apply ascii_digit_local; auto.
  - apply matches_ssn in Hr
      as (a0 & a1 & a2 & b0 & b1 & c0 & c1 & c2 & c3 & rest & Heq & Hm & Hd).
    apply app_inj_1 in Heq as [-> _]; [|done].
    repeat match goal with
           | Hall : Forall _ (_ :: _) |- _ => inversion Hall; clear Hall; subst
           end.
    repeat constructor; try (apply ascii_digit_local; by auto).
Qed.

(** The e-mail pass replaces the e-mail occurrences of a text whose decimal
    digits are ASCII digits. *)
Lemma pass_email prev pcs :
  occurrences prev pcs →
  Forall (λ c, is_digit c = true → is_ascii c = true) (flat pcs) →
  sub_from pat_email 0 prev (flat pcs) = render_sel (upto Email) pcs.
Proof.
  induction 1 as [prev|prev c rest Hnone _ IH|prev k m rest Hne Hr Hearlier Hocc IH];
    intros Hascii; cbn [flat render_sel].
  - cbn [sub_from].
    destruct (run pat_email prev []) as [[|n]|] eqn:Hr; try done.
    by apply (run_productive Email) in Hr.
  - rewrite sub_from_keep by apply (Hnone Email).
    cbn [flat] in Hascii. inversion Hascii; subst. by rewrite IH.
  - cbn [flat] in Hascii. apply Forall_app in Hascii as [Hm Hrest].
    assert (hits_fenced prev (Hit k m :: rest)) as Hf.
    { apply occurrences_fenced. by constructor. }
    inversion Hf as [| |? ? ? ? _ Hb1 Hb2 _]; subst.
    destruct k.
    + change (upto Email Email) with true. cbn iota.
      rewrite (sub_from_hit pat_email) by done. by rewrite IH.
    + change (upto Email Phone) with false. cbn iota.
      rewrite sub_from_quiet_in.
      * by rewrite IH.
      * apply email_quiet_in; [|done|by apply (Hearlier Email)].
        by apply (numeric_local Phone prev m (flat rest)).
    + change (upto Email Ssn) with false. cbn iota.
      rewrite sub_from_quiet_in.
      * by rewrite IH.
      * apply email_quiet_in; [|done|by apply (Hearlier Email)].
        by apply (numeric_local Ssn prev m (flat rest)).
Qed.

Lemma run_phone_none p (t : text) i :
  (i < 10)%nat → from_option is_digit false (t !! i) = false →
  run pat_phone p t = None.
Proof.
  intros Hi Hnot. destruct (run pat_phone p t) as [n|] eqn:Hrun; [|done].
  apply run_sound, matches_phone in Hrun as (w & r & -> & Hlen & _ & Hw).
  rewrite lookup_app_l in Hnot by lia.
  destruct (lookup_lt_is_Some_2 w i ltac:(lia)) as [c Hc].
  rewrite Hc in Hnot. simpl in Hnot.
  rewrite Forall_forall in Hw. rewrite Hw in Hnot; [done|].
  by eapply list_elem_of_lookup_2.
Qed.

Lemma not_digit_at (X : text) :
  word_at X = false → from_option is_digit false (X !! 0%nat) = false.
Proof.
  destruct X as [|x X]; [done|]. cbn. intros Hx.
  destruct (is_digit x) eqn:Hd; [|done].
  apply is_digit_word in Hd. congruence.
Qed.

(** No phone match starts inside an SSN occurrence. *)
Lemma phone_quiet_in_ssn prev prev' (m s X : text) :
  run pat_ssn prev (m ++ s) = Some (length m) →
  word_at X = false →
  quiet_in pat_phone prev' m X.
Proof.
  intros Hr HX. apply run_sound, matches_ssn in Hr
    as (a0 & a1 & a2 & b0 & b1 & c0 & c1 & c2 & c3 & rest & Heq & Hm & Hd).
  apply app_inj_1 in Heq as [-> _]; [|done].
  apply not_digit_at in HX.
  repeat split.
  - apply (run_phone_none _ _ 3); [lia|reflexivity].
  - apply (run_phone_none _ _ 2); [lia|reflexivity].
  - apply (run_phone_none _ _ 1); [lia|reflexivity].
  - apply (run_phone_none _ _ 0); [lia|reflexivity].
  - apply (run_phone_none _ _ 2); [lia|reflexivity].
  - apply (run_phone_none _ _ 1); [lia|reflexivity].
  - apply (run_phone_none _ _ 0); [lia|reflexivity].
  - apply (run_phone_none _ _ 4); [lia|exact HX].
  - apply (run_phone_none _ _ 3); [lia|exact HX].
  - apply (run_phone_none _ _ 2); [lia|exact HX].
  - apply (run_phone_none _ _ 1); [lia|exact HX].
Qed.

Lemma word_at_after_numeric q sel prev (m : text) rest :
  q ≠ Email → run (pat q) prev (m ++ flat rest) = Some (length m) →
  at_boundary (last_of prev m) (flat rest) = true →
  hits_fenced (last_of prev m) rest →
  word_at (flat rest) = false ∧ word_at (render_sel sel rest) = false.
Proof.
  intros Hq Hr Hb Hf. apply run_sound in Hr.
  destruct (matches_numeric q _ _ _ Hq Hr) as (_ & Hlast & _).
  rewrite take_app_length in Hlast.
  unfold at_boundary in Hb. rewrite Hlast in Hb.
  assert (word_at (flat rest) = false) as Hw by by destruct (word_at (flat rest)).
  split; [done|]. by eapply word_at_render_sel.
Qed.

(** The phone and the SSN pass, run on the text in which the earlier
    occurrences are already replaced, replace the occurrences of their own
    pattern in the original text. *)
Lemma pass_numeric q prev prev' pcs :
  q ≠ Email → occurrences prev pcs → ctx prev prev' (flat pcs) →
  sub_from (pat q) 0 prev' (render_sel (before q) pcs) = render_sel (upto q) pcs.
Proof.
  intros Hq Hocc. revert prev'.
  induction Hocc as [prev|prev c rest Hnone Hocc IH|prev k m rest Hne Hr Hearlier Hocc IH];
    intros prev' Hctx.
  - cbn [render_sel sub_from].
    destruct (run (pat q) prev' []) as [[|n]|] eqn:Hr; try done.
    by apply run_productive in Hr.
  - cbn [render_sel]. rewrite sub_from_keep.
    + rewrite IH; [done|by left].
    + apply (run_replaced_none (pat q) (before q) prev prev' (Keep c :: rest)).
      * apply fenced_pat.
      * apply occurrences_fenced. by constructor.
      * done.
      * apply Hnone.
  - assert (hits_fenced prev (Hit k m :: rest)) as Hf.
    { apply occurrences_fenced. by constructor. }
    inversion Hf as [| |? ? ? ? _ Hb1 Hb2 Hf']; subst.
    assert (sub_from (pat q) 0 prev' (token ++ render_sel (before q) rest)
            = token ++ render_sel (upto q) rest) as Htoken.
    { rewrite sub_from_token. rewrite IH; [done|]. by right. }
    assert (k = q →
            sub_from (pat q) 0 prev' (m ++ render_sel (before q) rest)
            = token ++ render_sel (upto q) rest) as Hown.
    { intros ->.
      destruct (word_at_after_numeric q (before q) prev m rest Hq Hr Hb2 Hf')
        as [Hw1 Hw2].
      rewrite sub_from_hit; [|done|].
      - rewrite (last_of_nonempty prev' prev) by done.
        rewrite IH; [done|by left].
      - apply (run_hit_survives q prev prev' m (flat rest)); try done.
        by rewrite Hw1, Hw2. }
    cbn [render_sel flat] in *.
    destruct q, k; try done; try (by apply Htoken); try (by apply Hown).
    change (before Phone Ssn) with false. change (upto Phone Ssn) with false.
    cbn iota.
    destruct (word_at_after_numeric Ssn (before Phone) prev m rest
                ltac:(done) Hr Hb2 Hf') as [Hw1 Hw2].
    rewrite sub_from_quiet_in.
    + rewrite (last_of_nonempty prev' prev) by done.
      rewrite IH; [done|by left].
    + by apply (phone_quiet_in_ssn prev prev' m (flat rest)).
Qed.

Lemma render_sel_ext sel sel' pcs :
  (∀ k, sel k = sel' k) → render_sel sel pcs = render_sel sel' pcs.
Proof.
  intros Hsel. induction pcs as [|[c|k m] pcs IH]; cbn [render_sel];
    by rewrite ?IH, ?Hsel.
Qed.

Lemma redact_occurrences prev pcs :
  occurrences prev pcs →
  Forall (λ c, is_digit c = true → is_ascii c = true) (flat pcs) →
  sub_from pat_ssn 0 prev
    (sub_from pat_phone 0 prev (sub_from pat_email 0 prev (flat pcs)))
  = render pcs.
Proof.
  intros Hocc Hascii.
  rewrite pass_email by done.
  rewrite (render_sel_ext (upto Email) (before Phone)) by by intros [].
  rewrite (pass_numeric Phone prev prev) by (done || by left).
  rewrite (render_sel_ext (upto Phone) (before Ssn)) by by intros [].
  rewrite (pass_numeric Ssn prev prev) by (done || by left).
  apply render_sel_ext. by intros [].
Qed.
End Passes.

(** C1, amended. For every text whose decimal digits are all ASCII digits
    (letters and signs outside ASCII are allowed) there is a cut of the text
    into kept characters and stretches such that: every stretch is an
    occurrence of one of the three patterns in the input (the pattern matches
    there with exactly that length, and no pattern earlier in the dictionary
    does), no pattern matches at a kept character, and the redacted text is
    the input with every stretch replaced by [[REDACTED]] and every kept
    character unchanged. *)
Theorem redact_replaces_occurrences `{UnicodeData} (t : text) :
  Forall (λ c, is_digit c = true → is_ascii c = true) t →
  ∃ pcs, flat pcs = t ∧ occurrences None pcs
         ∧ redact_sensitive_info t = render pcs.
Proof.
  intros Hascii. destruct (occurrences_exist t None) as (pcs & Hflat & Hocc).
  exists pcs. split; [done|]. split; [done|].
  rewrite redact_passes. unfold re_sub. rewrite <- Hflat.
  apply redact_occurrences; [done|by rewrite Hflat].
Qed.

(** A ticket line with an accented letter, under a database that knows the
    Arabic-Indic digits. *)
Lemma redact_replaces_occurrences_witness :
  (∃ pcs, flat pcs = accented_ticket ∧ occurrences (H := arabic_indic) None pcs
          ∧ redact_sensitive_info (H := arabic_indic) accented_ticket
            = render pcs)
  ∧ redact_sensitive_info (H := arabic_indic) accented_ticket
    = text_of "caf" ++ [233] ++ text_of ": [REDACTED], [REDACTED]".
Proof.
  split.
  - apply (redact_replaces_occurrences (H := arabic_indic) accented_ticket).
    repeat (constructor; [by vm_compute|]). constructor.
  - vm_compute. reflexivity.
Defined.

(** What the matcher does on "١٢٣-45-6789@a.cc" depends on the database only
    through the three facts that U+0661, U+0662 and U+0663 are decimal
    digits. *)
Lemma mixed_digits_any_database `{UnicodeData} :
  uni_decimal 1633 = true → uni_decimal 1634 = true → uni_decimal 1635 = true →
  run pat_ssn None mixed_digits_ssn = Some 11%nat
  ∧ redact_sensitive_info mixed_digits_ssn = [1633; 1634; 1635] ++ token.
Proof.
  destruct H as [decimal alnum low]. simpl. intros H1 H2 H3.
  split.
  - vm_compute. rewrite H1, H2, H3. reflexivity.
  - vm_compute. rewrite ?H1, ?H2, ?H3. vm_compute. rewrite ?H1, ?H2, ?H3.
    reflexivity.
Qed.

(** C1 as stated fails outside ASCII.  In "١٢٣-45-6789@a.cc" the SSN pattern
    matches the first eleven characters, [\d] accepting the Arabic-Indic
    digits; the e-mail pass, which runs first and whose class does not accept
    them, takes "-45-6789@a.cc", and the three digits are left in the output.
    No cut of the input at its occurrences gives that output. *)
Lemma redact_leaves_ssn_digits :
  run (H := arabic_indic) (pat_ssn (H := arabic_indic)) None mixed_digits_ssn
    = Some 11%nat
  ∧ redact_sensitive_info (H := arabic_indic) mixed_digits_ssn
    = [1633; 1634; 1635] ++ token
  ∧ ¬ ∃ pcs, flat pcs = mixed_digits_ssn
             ∧ occurrences (H := arabic_indic) None pcs
             ∧ redact_sensitive_info (H := arabic_indic) mixed_digits_ssn
               = render pcs.
Proof.
  split; [by vm_compute|]. split; [by vm_compute|].
  intros (pcs & Hflat & Hocc & Hred).
  inversion Hocc as [prev|prev c rest Hnone _|prev k m rest Hne Hr _ _]; subst.
  - discriminate Hflat.
  - specialize (Hnone Ssn). cbn [flat] in Hflat. rewrite Hflat in Hnone.
    vm_compute in Hnone. discriminate Hnone.
  - vm_compute in Hred. discriminate Hred.
Qed.

(** ** Running monadic code *)

Lemma run_bind {A B} (m : M A) (f : A → M B) st :
  (m ≫= f) st =
  match m st with
  | (Done a, st', log) =>
      match f a st' with (r, st'', log') => (r, st'', log ++ log') end
  | (Raised e, st', log) => (Raised e, st', log)
  end.
Proof. reflexivity. Qed.

Lemma run_ret {A} (a : A) st : (mret a : M A) st = (Done a, st, []).
Proof. reflexivity. Qed.

Lemma has_key_true (d : record) k :
  has_key d k = true → ∃ v, d !! k = Some v.
Proof.
  unfold has_key. intros Hk. apply bool_decide_eq_true in Hk.
  destruct Hk as [v Hv]. by exists v.
Qed.

Lemma getitem_some (d : record) k v st :
  d !! k = Some v → getitem d k st = (Done v, st, []).
Proof. intros Hv. unfold getitem. by rewrite Hv. Qed.

(** ** Note aggregation *)

Lemma note_line_fields note e c v st :
  note !! "element" = Some e → note !! "sys_created_on" = Some c →
  note !! "value" = Some v →
  note_line note st = (Done (labelled_line e c v), st, []).
Proof.
  intros He Hc Hv. unfold note_line.
  rewrite run_bind, (getitem_some _ _ _ _ He).
  rewrite run_bind, (getitem_some _ _ _ _ Hc).
  rewrite run_bind, (getitem_some _ _ _ _ Hv).
  reflexivity.
Qed.

Lemma has_required_fields_true note :
  has_required_fields note = true →
  ∃ e c v, note !! "element" = Some e ∧ note !! "sys_created_on" = Some c
           ∧ note !! "value" = Some v.
Proof.
  unfold has_required_fields. intros Hr.
  apply andb_true_iff in Hr as [Hr Hv]. apply andb_true_iff in Hr as [He Hc].
  apply has_key_true in He as [e He]. apply has_key_true in Hc as [c Hc].
  apply has_key_true in Hv as [v Hv]. eauto 7.
Qed.

Lemma has_required_fields_intro note e c v :
  note !! "element" = Some e → note !! "sys_created_on" = Some c →
  note !! "value" = Some v → has_required_fields note = true.
Proof.
  intros He Hc Hv. unfold has_required_fields, has_key.
  rewrite !bool_decide_eq_true_2; eauto.
Qed.

Lemma combine_notes_from acc notes st :
  for_acc notes acc (λ combined_notes note,
      if has_required_fields note then
        note_content ← note_line note;
        mret (combined_notes ++ note_content)
      else
        emit (EvWrite skip_notice note);; mret combined_notes) st
  = (Done (acc ++ concat (line_of <$> filter (λ n, has_required_fields n = true) notes)),
     st,
     EvWrite skip_notice <$> filter (λ n, has_required_fields n ≠ true) notes).
Proof.
  revert acc. induction notes as [|note notes IH]; intros acc; simpl.
  - by rewrite app_nil_r.
  - rewrite run_bind. destruct (has_required_fields note) eqn:Hreq.
    + destruct (has_required_fields_true _ Hreq) as (e & c & v & He & Hc & Hv).
      rewrite run_bind, (note_line_fields _ _ _ _ _ He Hc Hv).
      rewrite run_ret. rewrite IH. simpl.
      rewrite filter_cons_True by done. rewrite filter_cons_False by (by intros []).
      simpl. unfold line_of at 2. rewrite He, Hc, Hv. by rewrite <- app_assoc.
    + rewrite run_bind. simpl. rewrite IH.
      rewrite filter_cons_False by (by rewrite Hreq).
      rewrite filter_cons_True by (by rewrite Hreq). reflexivity.
Qed.

Lemma combine_notes_for_resolution_from acc notes st :
  for_acc notes acc (λ combined_notes note,
      if has_required_fields note then
        note_content ← note_line note;
        mret (combined_notes ++ note_content)
      else mret combined_notes) st
  = (Done (acc ++ concat (line_of <$> filter (λ n, has_required_fields n = true) notes)),
     st, []).
Proof.
  revert acc. induction notes as [|note notes IH]; intros acc; simpl.
  - by rewrite app_nil_r.
  - rewrite run_bind. destruct (has_required_fields note) eqn:Hreq.
    + destruct (has_required_fields_true _ Hreq) as (e & c & v & He & Hc & Hv).
      rewrite run_bind, (note_line_fields _ _ _ _ _ He Hc Hv).
      rewrite run_ret. rewrite IH. simpl.
      rewrite filter_cons_True by done.
      simpl. unfold line_of at 2. rewrite He, Hc, Hv. by rewrite <- app_assoc.
    + rewrite run_ret. rewrite IH.
      rewrite filter_cons_False by (by rewrite Hreq). reflexivity.
Qed.

Lemma complete_notes_lines (notes : list record) (fields : list (text * text * text)) :
  Forall2 (λ note f, note !! "element" = Some f.1.1
                     ∧ note !! "sys_created_on" = Some f.1.2
                     ∧ note !! "value" = Some f.2) notes fields →
  filter (λ n, has_required_fields n = true) notes = notes
  ∧ filter (λ n, has_required_fields n ≠ true) notes = []
  ∧ line_of <$> notes = (λ f, labelled_line f.1.1 f.1.2 f.2) <$> fields.
Proof.
  induction 1 as [|note f notes fields (He & Hc & Hv) _ (IH1 & IH2 & IH3)].
  - done.
  - pose proof (has_required_fields_intro _ _ _ _ He Hc Hv) as Hreq.
    rewrite filter_cons_True by done.
    rewrite filter_cons_False by (by intros []).
    rewrite IH1, IH2. repeat split; [].
    rewrite !fmap_cons, IH3. unfold line_of. by rewrite He, Hc, Hv.
Qed.

(** C2. When every note carries [element], [sys_created_on] and [value], both
    aggregation loops return, in input order, one line
    ["<label> (<sys_created_on>): <value>\n"] per note, the label being
    "Work Note" exactly for element "work_notes" and "Additional Comment"
    otherwise; nothing is logged and the session is untouched. *)
Theorem aggregation_emits_lines
    (notes : list record) (fields : list (text * text * text)) (st : session) :
  Forall2 (λ note f, note !! "element" = Some f.1.1
                     ∧ note !! "sys_created_on" = Some f.1.2
                     ∧ note !! "value" = Some f.2) notes fields →
  combine_notes notes st
    = (Done (concat ((λ f, labelled_line f.1.1 f.1.2 f.2) <$> fields)), st, [])
  ∧ combine_notes_for_resolution notes st
    = (Done (concat ((λ f, labelled_line f.1.1 f.1.2 f.2) <$> fields)), st, []).
Proof.
  intros Hall. destruct (complete_notes_lines _ _ Hall) as (Hkeep & Hdrop & Hlines).
  unfold combine_notes, combine_notes_for_resolution.
  rewrite combine_notes_from, combine_notes_for_resolution_from.
  rewrite Hkeep, Hdrop, Hlines. done.
Qed.

(** The two-note input of the specification, at concrete timestamps. *)
Lemma aggregation_emits_lines_witness :
  combine_notes
    [mk_note (text_of "work_notes") (text_of "2024-05-01 09:00:00") (text_of "a");
     mk_note (text_of "comments") (text_of "2024-05-01 09:30:00") (text_of "b")]
    initial_session
  = (Done (text_of "Work Note (2024-05-01 09:00:00): a" ++ nl
           ++ text_of "Additional Comment (2024-05-01 09:30:00): b" ++ nl),
     initial_session, []).
Proof.
  exact (proj1 (aggregation_emits_lines
    [mk_note (text_of "work_notes") (text_of "2024-05-01 09:00:00") (text_of "a");
     mk_note (text_of "comments") (text_of "2024-05-01 09:30:00") (text_of "b")]
    [(text_of "work_notes", text_of "2024-05-01 09:00:00", text_of "a");
     (text_of "comments", text_of "2024-05-01 09:30:00", text_of "b")]
    initial_session
    ltac:(repeat constructor))).
Defined.

(** The same input at arbitrary timestamps [t1] and [t2]. *)
Lemma aggregation_two_notes (t1 t2 : text) (st : session) :
  combine_notes
    [mk_note (text_of "work_notes") t1 (text_of "a");
     mk_note (text_of "comments") t2 (text_of "b")] st
  = (Done (text_of "Work Note (" ++ t1 ++ text_of "): a" ++ nl
           ++ text_of "Additional Comment (" ++ t2 ++ text_of "): b" ++ nl),
     st, []).
Proof.
  unfold combine_notes. rewrite combine_notes_from.
  destruct (complete_notes_lines
    [mk_note (text_of "work_notes") t1 (text_of "a");
     mk_note (text_of "comments") t2 (text_of "b")]
    [(text_of "work_notes", t1, text_of "a"); (text_of "comments", t2, text_of "b")]
    ltac:(repeat (constructor; [repeat split; reflexivity|]); constructor))
    as (Hkeep & Hdrop & Hlines).
  rewrite Hkeep, Hdrop, Hlines.
  simpl. unfold labelled_line. simpl. rewrite app_nil_r.
  by rewrite <- !app_assoc.
Qed.

(** C3. On [note_without_value; complete note] both loops leave the incomplete
    note out and keep the line of the note after it, but only the loop of
    [summarize_incident] writes the skip notice: the loop of
    [fetch_detailed_resolution_steps] logs nothing. *)
Theorem resolution_path_skips_silently :
  let ok := mk_note (text_of "comments") (text_of "t2") (text_of "b") in
  combine_notes [note_without_value; ok] initial_session
    = (Done (text_of "Additional Comment (t2): b" ++ nl), initial_session,
       [EvWrite skip_notice note_without_value])
  ∧ combine_notes_for_resolution [note_without_value; ok] initial_session
    = (Done (text_of "Additional Comment (t2): b" ++ nl), initial_session, []).
Proof. split; vm_compute; reflexivity. Qed.

(** ** Ticketing client *)

(** C8. [fetch_incident_data] makes one request and, without touching the
    session: returns the first record when the status is 200 and the result
    list is non-empty; returns none when the status is 200 and the result is
    missing or empty; returns none, raising nothing, for every other status,
    the 4xx and 5xx ones among them. *)
Theorem fetch_incident_data_outcome (w : world) (number : text) (st : session) :
  let response := http_table w (GetIncident number) in
  (∀ first rest,
     status_code response = 200%Z →
     json_result response = Some (Some (first :: rest)) →
     fetch_incident_data w number st
       = (Done (Some first), st, [EvHttp (GetIncident number)]))
  ∧ (status_code response = 200%Z →
     json_result response = Some None ∨ json_result response = Some (Some []) →
     fetch_incident_data w number st
       = (Done None, st, [EvHttp (GetIncident number)]))
  ∧ (status_code response ≠ 200%Z →
     fetch_incident_data w number st
       = (Done None, st, [EvHttp (GetIncident number)]))
  ∧ ((400 ≤ status_code response < 600)%Z →
     fetch_incident_data w number st
       = (Done None, st, [EvHttp (GetIncident number)])).
Proof.
  intros response. unfold fetch_incident_data. fold response.
  rewrite run_bind. simpl.
  split; [|split; [|split]].
  - intros first rest Hs Hj. by rewrite Hs, Hj.
  - intros Hs [Hj|Hj]; by rewrite Hs, Hj.
  - intros Hs. apply Z.eqb_neq in Hs. by rewrite Hs.
  - intros Hs. assert (status_code response ≠ 200%Z) as Hne by lia.
    apply Z.eqb_neq in Hne. by rewrite Hne.
Qed.

(** One backend per case: a hit, an empty result, a 404 and a 503. *)
Lemma fetch_incident_data_outcome_witness :
  fetch_incident_data (const_world 200 (Some (Some [resolved_incident])) 200 [])
      (text_of "INC0010001") initial_session
    = (Done (Some resolved_incident), initial_session,
       [EvHttp (GetIncident (text_of "INC0010001"))])
  ∧ fetch_incident_data (const_world 200 (Some (Some [])) 200 [])
      (text_of "INC0010001") initial_session
    = (Done None, initial_session, [EvHttp (GetIncident (text_of "INC0010001"))])
  ∧ fetch_incident_data (const_world 404 None 200 [])
      (text_of "INC0010001") initial_session
    = (Done None, initial_session, [EvHttp (GetIncident (text_of "INC0010001"))])
  ∧ fetch_incident_data (const_world 503 None 200 [])
      (text_of "INC0010001") initial_session
    = (Done None, initial_session, [EvHttp (GetIncident (text_of "INC0010001"))]).
Proof.
  split; [|split; [|split]].
  - apply (proj1 (fetch_incident_data_outcome
      (const_world 200 (Some (Some [resolved_incident])) 200 [])
      (text_of "INC0010001") initial_session) resolved_incident []);
      reflexivity.
  - apply (proj1 (proj2 (fetch_incident_data_outcome
      (const_world 200 (Some (Some [])) 200 [])
      (text_of "INC0010001") initial_session))); [reflexivity | by right].
  - apply (proj1 (proj2 (proj2 (fetch_incident_data_outcome
      (const_world 404 None 200 [])
      (text_of "INC0010001") initial_session)))). simpl. lia.
  - apply (proj2 (proj2 (proj2 (fetch_incident_data_outcome
      (const_world 503 None 200 [])
      (text_of "INC0010001") initial_session)))). simpl. lia.
Defined.

(** When the lookup yields no record the helper says so in one step. *)
Lemma fetch_incident_data_miss (w : world) (number : text) (st : session) :
  (status_code (http_table w (GetIncident number)) ≠ 200%Z
   ∨ json_result (http_table w (GetIncident number)) = Some None
   ∨ json_result (http_table w (GetIncident number)) = Some (Some [])) →
  fetch_incident_data w number st
    = (Done None, st, [EvHttp (GetIncident number)]).
Proof.
  intros Hmiss. unfold fetch_incident_data. rewrite run_bind. simpl.
  destruct (status_code (http_table w (GetIncident number)) =? 200)%Z eqn:Hs;
    [|done].
  destruct Hmiss as [Hne|[Hj|Hj]].
  - by apply Z.eqb_eq in Hs.
  - by rewrite Hj.
  - by rewrite Hj.
Qed.

Lemma fetch_incident_data_hit (w : world) (number : text) (st : session) data rest :
  status_code (http_table w (GetIncident number)) = 200%Z →
  json_result (http_table w (GetIncident number)) = Some (Some (data :: rest)) →
  fetch_incident_data w number st
    = (Done (Some data), st, [EvHttp (GetIncident number)]).
Proof.
  intros Hs Hj. unfold fetch_incident_data. rewrite run_bind. simpl.
  by rewrite Hs, Hj.
Qed.

(** ** Session orchestration *)

(** C6. From any session, Clear leaves the incident, the notes, the summary,
    the resolution steps and the entered identifier all [None]. *)
Theorem clear_resets_session (st : session) :
  let st' := session_of (on_clear st) in
  incident_number st' = None ∧ incident_data st' = None
  ∧ incident_notes st' = None ∧ summarized_notes st' = None
  ∧ resolution_steps st' = None.
Proof. repeat split. Qed.

(** C4. With an identifier entered and the lookup returning an incident whose
    state is "5", "6" or "7", the Resolution Steps handler does exactly two
    things, the incident lookup and the informational message: the log holds
    no note fetch and no model call, and the session is the one it started
    from. *)
Theorem resolution_steps_closed_incident `{UnicodeData}
    (w : world) (entered : text) (data : record) (rest : list record)
    (state : text) (st : session) :
  entered ≠ [] →
  status_code (http_table w (GetIncident entered)) = 200%Z →
  json_result (http_table w (GetIncident entered)) = Some (Some (data :: rest)) →
  data !! "state" = Some state →
  state = text_of "5" ∨ state = text_of "6" ∨ state = text_of "7" →
  on_resolution_steps w entered st
    = (Done tt, st, [EvHttp (GetIncident entered); EvInfo closed_notice])
  ∧ filter (λ ev, is_note_fetch ev = true)
      (log_of (on_resolution_steps w entered st)) = []
  ∧ filter (λ ev, is_model_call ev = true)
      (log_of (on_resolution_steps w entered st)) = []
  ∧ session_of (on_resolution_steps w entered st) = st.
Proof.
  intros Hne Hs Hj Hstate Hclosed.
  assert (on_resolution_steps w entered st
    = (Done tt, st, [EvHttp (GetIncident entered); EvInfo closed_notice])) as Hrun.
  { unfold on_resolution_steps. rewrite bool_decide_eq_true_2 by done.
    rewrite run_bind, (fetch_incident_data_hit _ _ _ _ _ Hs Hj).
    assert (truthy data = true) as ->.
    { apply bool_decide_eq_true_2. intros ->. by rewrite lookup_empty in Hstate. }
    rewrite run_bind, (getitem_some _ _ _ _ Hstate).
    rewrite bool_decide_eq_true_2; [done|].
    unfold closed_states. destruct Hclosed as [-> | [-> | ->]]; set_solver. }
  rewrite Hrun. done.
Qed.

Lemma resolution_steps_closed_incident_witness :
  on_resolution_steps (H := ascii_only)
      (const_world 200 (Some (Some [resolved_incident])) 200 [])
      (text_of "INC0010001") loaded_session
  = (Done tt, loaded_session,
     [EvHttp (GetIncident (text_of "INC0010001")); EvInfo closed_notice]).
Proof.
  apply (resolution_steps_closed_incident (H := ascii_only)
    (const_world 200 (Some (Some [resolved_incident])) 200 [])
    (text_of "INC0010001") resolved_incident [] (text_of "6") loaded_session).
  - discriminate.
  - reflexivity.
  - reflexivity.
  - reflexivity.
  - right; left; reflexivity.
Defined.

(** C5 as stated fails: a lookup that finds nothing still overwrites the
    stored identifier.  From the initial session, submitting "INC0099999" to a
    backend that answers 404 leaves the identifier set. *)
Lemma summarize_not_found_keeps_identifier :
  let r := on_summarize (H := ascii_only) (const_world 404 None 200 [])
             (text_of "INC0099999") initial_session in
  log_of r = [EvHttp (GetIncident (text_of "INC0099999"));
              EvError (text_of "Incident not found.")]
  ∧ incident_number (session_of r) = Some (text_of "INC0099999")
  ∧ session_of r ≠ initial_session.
Proof. vm_compute. repeat split; discriminate. Qed.

(** C5, amended. When a non-empty identifier is submitted and the lookup
    yields no record (status other than 200, or no or an empty result list),
    Summarize Incident stores the entered identifier, leaves the incident, the
    notes, the summary and the resolution steps as they were, and its only
    output is the message "Incident not found.". *)
Theorem summarize_not_found `{UnicodeData}
    (w : world) (entered : text) (st : session) :
  entered ≠ [] →
  (status_code (http_table w (GetIncident entered)) ≠ 200%Z
   ∨ json_result (http_table w (GetIncident entered)) = Some None
   ∨ json_result (http_table w (GetIncident entered)) = Some (Some [])) →
  on_summarize w entered st
  = (Done tt,
     {| incident_data := incident_data st; incident_notes := incident_notes st;
        summarized_notes := summarized_notes st;
        resolution_steps := resolution_steps st;
        incident_number := Some entered |},
     [EvHttp (GetIncident entered); EvError (text_of "Incident not found.")]).
Proof.
  intros Hne Hmiss. unfold on_summarize.
  rewrite bool_decide_eq_true_2 by done.
  rewrite run_bind. simpl.
  rewrite run_bind, (fetch_incident_data_miss _ _ _ Hmiss). reflexivity.
Qed.

Lemma summarize_not_found_witness :
  on_summarize (H := ascii_only) (const_world 404 None 200 [])
    (text_of "INC0099999") loaded_session
  = (Done tt,
     {| incident_data := Some resolved_incident; incident_notes := Some [];
        summarized_notes := Some (text_of "old summary");
        resolution_steps := Some (text_of "old steps");
        incident_number := Some (text_of "INC0099999") |},
     [EvHttp (GetIncident (text_of "INC0099999"));
      EvError (text_of "Incident not found.")]).
Proof.
  apply (summarize_not_found (H := ascii_only) (const_world 404 None 200 [])
           (text_of "INC0099999") loaded_session).
  - discriminate.
  - left. simpl. lia.
Defined.

(** ** Attachment summarizer *)

Lemma for_acc_app {A S} (l1 l2 : list A) (acc : S) (body : S → A → M S) st :
  for_acc (l1 ++ l2) acc body st
  = (acc' ← for_acc l1 acc body; for_acc l2 acc' body) st.
Proof.
  revert acc st. induction l1 as [|x l1 IH]; intros acc st; simpl.
  - rewrite run_bind. simpl. destruct (for_acc l2 acc body st) as [[r st'] log].
    reflexivity.
  - rewrite !run_bind. destruct (body acc x st) as [[[acc'|e] st'] log]; [|done].
    rewrite IH, run_bind.
    destruct (for_acc l1 acc' body st') as [[[acc''|e] st''] log']; [|done].
    destruct (for_acc l2 acc'' body st'') as [[r st3] log3].
    by rewrite app_assoc.
Qed.

Section Attachments.
Context `{UnicodeData} `{Codec}.
Variable w : world.

Lemma fetch_attachment_data_run id st :
  fetch_attachment_data w id st
  = (Done (if (file_status (http_file w id) =? 200)%Z
           then Some (content (http_file w id)) else None),
     st, [EvHttp (GetFile id)]).
Proof.
  unfold fetch_attachment_data. rewrite run_bind. simpl.
  by destruct (file_status (http_file w id) =? 200)%Z.
Qed.

Lemma summarize_text_run t task st :
  ∃ summary log,
    summarize_text w t task st = (Done summary, st, log)
    ∧ filter (λ ev, is_model_call ev = true) log
      = [EvCompletion (completion_prompt task t)].
Proof.
  unfold summarize_text. fold (completion_prompt task t).
  rewrite run_bind. simpl.
  destruct (openai_completion w (completion_prompt task t)) as [e|result].
  - rewrite run_bind. simpl. by eexists _, _.
  - simpl. by eexists _, _.
Qed.

(** One turn of the loop on an attachment that has a file name. *)
Lemma attachment_step summaries (a : record) name st :
  a !! "file_name" = Some name →
  ∃ entry log,
    attachment_turn w summaries a st = (Done (summaries ++ entry), st, log)
    ∧ (if reaches_summarization w a
       then summary_file_name <$> entry = [name]
            ∧ filter (λ ev, is_model_call ev = true) log
              = [EvCompletion (completion_prompt (text_of "Summarize")
                                 (utf8_decode_ignore (file_bytes w a)))]
       else entry = []
            ∧ filter (λ ev, is_model_call ev = true) log = []).
Proof.
  intros Hname. unfold attachment_turn.
  rewrite run_bind, (getitem_some _ _ _ _ Hname).
  unfold reaches_summarization, file_bytes. rewrite Hname.
  destruct (is_image name); simpl.
  { exists [], []. rewrite app_nil_r. split; [done|].
    by destruct (a !! "sys_id"). }
  unfold has_key. destruct (a !! "sys_id") as [id|] eqn:Hid.
  2:{ rewrite bool_decide_eq_false_2 by (by intros [? ?]).
      exists [], []. by rewrite app_nil_r. }
  rewrite bool_decide_eq_true_2 by eauto.
  rewrite run_bind. unfold getitem at 1. rewrite Hid. simpl.
  rewrite run_bind, fetch_attachment_data_run.
  destruct (file_status (http_file w id) =? 200)%Z; simpl.
  2:{ exists [], [EvHttp (GetFile id)]. by rewrite app_nil_r. }
  destruct (content (http_file w id)) as [|b bs] eqn:Hbytes; simpl.
  { exists [], [EvHttp (GetFile id)]. by rewrite app_nil_r. }
  destruct (summarize_text_run (utf8_decode_ignore (b :: bs))
              (text_of "Summarize") st) as (summary & log & Hrun & Hlog).
  rewrite run_bind, Hrun. rewrite run_bind, (getitem_some _ _ _ _ Hname).
  simpl. eexists [_], _. split; [reflexivity|]. split; [done|].
  rewrite app_nil_r. simpl. exact Hlog.
Qed.

Lemma summarize_attachments_from (attachments : list record) summaries st :
  Forall (λ a, is_Some (a !! "file_name")) attachments →
  ∃ entries log,
    for_acc attachments summaries (attachment_turn w) st
    = (Done (summaries ++ entries), st, log)
    ∧ summary_file_name <$> entries
      = file_name_of <$> filter (λ a, reaches_summarization w a = true) attachments
    ∧ filter (λ ev, is_model_call ev = true) log
      = (λ a, EvCompletion (completion_prompt (text_of "Summarize")
                              (utf8_decode_ignore (file_bytes w a))))
        <$> filter (λ a, reaches_summarization w a = true) attachments.
Proof.
  intros Hall. revert summaries.
  induction Hall as [|a attachments [name Hname] _ IH]; intros summaries.
  - exists [], []. simpl. by rewrite app_nil_r.
  - cbn [for_acc]. rewrite run_bind.
    destruct (attachment_step summaries a name st Hname)
      as (entry & log & -> & Hentry).
    destruct (IH (summaries ++ entry)) as (entries & log' & -> & Hnames & Hcalls).
    exists (entry ++ entries), (log ++ log').
    split; [by rewrite app_assoc|].
    rewrite fmap_app, filter_app, Hnames, Hcalls.
    destruct (reaches_summarization w a) eqn:Hreach.
    + destruct Hentry as [-> ->]. rewrite filter_cons_True by done.
      rewrite !fmap_cons.
      assert (file_name_of a = name) as ->
        by (unfold file_name_of; by rewrite Hname).
      done.
    + destruct Hentry as [-> ->]. rewrite filter_cons_False by (by rewrite Hreach).
      done.
Qed.
End Attachments.

(** C7 as stated fails: not being an image is not enough.  On the four files
    of the specification, with every download answering 404, [b.txt] and
    [d.log] are not images and yet nothing reaches summarization. *)
Lemma non_image_not_summarized :
  let H := ascii_only in
  let C := ascii_codec in
  let r := summarize_attachments (const_world 200 None 404 []) four_files
             initial_session in
  file_name_of <$> filter (λ a, not_image a = true) four_files
    = [text_of "b.txt"; text_of "d.log"]
  ∧ result_of r = Done []
  ∧ filter (λ ev, is_model_call ev = true) (log_of r) = [].
Proof. vm_compute. done. Qed.

(** ** The selection of attachments, in the words of the specification *)

Lemma endswith_suffix (s x : text) :
  endswith s x = true ↔ ∃ stem, s = stem ++ x.
Proof.
  unfold endswith. rewrite bool_decide_eq_true. split.
  - intros Hd. exists (take (length s - length x) s).
    transitivity (take (length s - length x) s ++ drop (length s - length x) s);
      [by rewrite take_drop|by rewrite Hd].
  - intros [stem ->]. rewrite length_app.
    replace (length stem + length x - length x)%nat with (length stem) by lia.
    by rewrite drop_app_length.
Qed.

Lemma is_image_named `{UnicodeData} (name : text) :
  is_image name = true ↔ named_as_image name.
Proof.
  unfold is_image, named_as_image, ends_ignoring_case.
  rewrite existsb_exists. split.
  - intros (ext & Hin & Hends). exists ext. split.
    + by apply list_elem_of_In.
    + by apply endswith_suffix.
  - intros (ext & Hin & Hends). exists ext. split.
    + by apply list_elem_of_In.
    + by apply endswith_suffix.
Qed.

Lemma reaches_selected `{UnicodeData} (w : world) (a : record) :
  reaches_summarization w a = true ↔ selected_by_claim w a.
Proof.
  unfold reaches_summarization, selected_by_claim.
  destruct (a !! "file_name") as [name|]; [|split; [done|by intros (? & ? & ? & _)]].
  destruct (a !! "sys_id") as [id|]; [|split; [done|by intros (? & ? & _ & ? & _)]].
  rewrite !andb_true_iff, !negb_true_iff, Z.eqb_eq, bool_decide_eq_false.
  rewrite <- not_true_iff_false, is_image_named. split.
  - intros [[Himg Hs] Hc]. by exists name, id.
  - intros (name' & id' & [= <-] & [= <-] & Himg & Hs & Hc). done.
Qed.

Lemma ascii_lower_same_letter (c d : char) :
  ascii_upper d = false → ascii_lower_char c = d ↔ same_letter c d.
Proof.
  unfold ascii_lower_char, ascii_upper, in_range, same_letter. intros Hd.
  apply andb_false_iff in Hd.
  destruct ((65 <=? c) && (c <=? 90)) eqn:Hc.
  - apply andb_true_iff in Hc as [H1 H2].
    apply N.leb_le in H1, H2. split; [intros <-; right; left; lia|].
    intros [->|[[_ ->]|[[H3 H4] ->]]]; [|done|].
    + destruct Hd as [Hd|Hd]; apply N.leb_gt in Hd; lia.
    + destruct Hd as [Hd|Hd]; apply N.leb_gt in Hd; lia.
  - apply andb_false_iff in Hc. split; [by left|].
    intros [->|[[[H1 H2] ->]|[[H3 H4] ->]]]; [done| |].
    + destruct Hc as [Hc|Hc]; apply N.leb_gt in Hc; lia.
    + destruct Hd as [Hd|Hd]; apply N.leb_gt in Hd; lia.
Qed.

Lemma fmap_lower_letters (tail ext : text) :
  Forall (λ d, ascii_upper d = false) ext →
  ascii_lower_char <$> tail = ext ↔ Forall2 same_letter tail ext.
Proof.
  intros Hext. revert tail.
  induction Hext as [|d ext Hd _ IH]; intros [|c tail]; split; try done.
  - inversion 1.
  - inversion 1.
  - rewrite fmap_cons. intros [= Hc Ht]. constructor.
    + by apply ascii_lower_same_letter.
    + by apply IH.
  - inversion 1; subst. rewrite fmap_cons. f_equal.
    + by apply ascii_lower_same_letter.
    + by apply IH.
Qed.

Lemma claimed_extensions_lower (ext : text) :
  ext ∈ claimed_extensions → Forall (λ d, ascii_upper d = false) ext.
Proof.
  assert (Forall (λ ext, Forall (λ d, ascii_upper d = false) ext)
            claimed_extensions) as Hall by (repeat constructor).
  rewrite Forall_forall in Hall. apply Hall.
Qed.

Lemma ends_ignoring_case_letters `{UnicodeData} (name ext : text) :
  Forall (λ c, is_ascii c = true) name →
  ext ∈ claimed_extensions →
  ends_ignoring_case name ext ↔ ends_with_letters name ext.
Proof.
  intros Hascii Hext. apply claimed_extensions_lower in Hext.
  unfold ends_ignoring_case, ends_with_letters, lower.
  assert (forallb is_ascii name = true) as ->.
  { apply forallb_forall. intros c Hc. rewrite Forall_forall in Hascii.
    apply Hascii. by apply list_elem_of_In. }
  split.
  - intros [stem Hl]. apply fmap_app_inv in Hl as (l1 & l2 & -> & Hl2 & ->).
    exists l1, l2. split; [done|]. by apply fmap_lower_letters.
  - intros (stem & tail & -> & Hl). apply fmap_lower_letters in Hl; [|done].
    exists (ascii_lower_char <$> stem). by rewrite fmap_app, Hl.
Qed.

(** C7, amended. When every attachment has a [file_name],
    [summarize_attachments] returns, in input order, one entry for each
    attachment of a selection, and exactly these are handed to
    [summarize_text], each as the decoded bytes under the task "Summarize".
    An attachment is in the selection if and only if its name does not end,
    once in lower case, with one of .png, .jpg, .jpeg, .gif, .bmp, .tiff, and
    it has a [sys_id] whose download answers 200 with at least one byte.  For
    a name of ASCII characters, ending with an extension once in lower case
    is ending with it letter by letter, whatever the case of each letter. *)
Theorem summarize_attachments_selection `{UnicodeData} `{Codec}
    (w : world) (attachments : list record) (st : session) :
  Forall (λ a, is_Some (a !! "file_name")) attachments →
  (∃ summaries log,
    summarize_attachments w attachments st = (Done summaries, st, log)
    ∧ summary_file_name <$> summaries
      = file_name_of <$> filter (λ a, reaches_summarization w a = true) attachments
    ∧ filter (λ ev, is_model_call ev = true) log
      = (λ a, EvCompletion (completion_prompt (text_of "Summarize")
                              (utf8_decode_ignore (file_bytes w a))))
        <$> filter (λ a, reaches_summarization w a = true) attachments)
  ∧ (∀ a, reaches_summarization w a = true ↔ selected_by_claim w a)
  ∧ (∀ name ext, Forall (λ c, is_ascii c = true) name →
       ext ∈ claimed_extensions →
       ends_ignoring_case name ext ↔ ends_with_letters name ext).
Proof.
  intros Hall. split; [|split].
  - unfold summarize_attachments.
    destruct (summarize_attachments_from w attachments [] st Hall)
      as (entries & log & Hrun & Hnames & Hcalls).
    exists entries, log. by rewrite Hrun.
  - apply reaches_selected.
  - apply ends_ignoring_case_letters.
Qed.

(** The four files of the specification, all downloadable: the entries are
    those of [b.txt] and [d.log], and two prompts go to the model. *)
Lemma summarize_attachments_selection_witness :
  ∃ summaries log,
    summarize_attachments (H := ascii_only) (H0 := ascii_codec)
      four_files_world four_files initial_session
    = (Done summaries, initial_session, log)
    ∧ summary_file_name <$> summaries = [text_of "b.txt"; text_of "d.log"]
    ∧ filter (λ ev, is_model_call ev = true) log
      = [EvCompletion (completion_prompt (text_of "Summarize") (text_of "hi"));
         EvCompletion (completion_prompt (text_of "Summarize") (text_of "hi"))].
Proof.
  destruct (summarize_attachments_selection (H := ascii_only) (H0 := ascii_codec)
              four_files_world four_files initial_session)
    as [(summaries & log & Hrun & Hnames & Hcalls) _].
  - repeat (constructor; [by eexists|]). constructor.
  - exists summaries, log. split; [exact Hrun|]. split.
    + rewrite Hnames. vm_compute. reflexivity.
    + rewrite Hcalls. vm_compute. reflexivity.
Defined.

Lemma attachment_turn_skipped `{UnicodeData} `{Codec}
    (w : world) (a : record) (name : text) summaries st :
  a !! "file_name" = Some name →
  reaches_summarization w a = false →
  ∃ log, attachment_turn w summaries a st = (Done summaries, st, log).
Proof.
  intros Hname Hskip.
  destruct (attachment_step w summaries a name st Hname) as (entry & log & Hrun & Hentry).
  rewrite Hskip in Hentry. destruct Hentry as [-> _].
  exists log. by rewrite app_nil_r in Hrun.
Qed.

(** C10. A non-image attachment that has no [sys_id], or whose download
    answers with zero bytes, or whose download fails, adds no entry: the
    summaries of a list with it are those of the list without it, so an empty
    file and a failed download leave the same output. *)
Theorem unfetched_attachment_has_no_entry `{UnicodeData} `{Codec}
    (w : world) (a : record) (name : text) (pre post : list record)
    (st : session) :
  a !! "file_name" = Some name →
  is_image name = false →
  (a !! "sys_id" = None
   ∨ (∃ id, a !! "sys_id" = Some id ∧ content (http_file w id) = [])
   ∨ (∃ id, a !! "sys_id" = Some id ∧ file_status (http_file w id) ≠ 200%Z)) →
  result_of (summarize_attachments w (pre ++ a :: post) st)
  = result_of (summarize_attachments w (pre ++ post) st).
Proof.
  intros Hname Himg Hcase.
  assert (reaches_summarization w a = false) as Hskip.
  { unfold reaches_summarization. rewrite Hname.
    destruct Hcase as [-> | [(id & -> & Hbytes) | (id & -> & Hstatus)]].
    - done.
    - rewrite Hbytes. rewrite bool_decide_eq_true_2 by done.
      by rewrite andb_false_r.
    - apply Z.eqb_neq in Hstatus. rewrite Hstatus.
      by rewrite andb_false_r. }
  unfold summarize_attachments. rewrite !for_acc_app, !run_bind.
  destruct (for_acc pre [] (attachment_turn w) st) as [[[acc|e] st'] log]; [|done].
  cbn [for_acc]. rewrite run_bind.
  destruct (attachment_turn_skipped w a name acc st' Hname Hskip) as [log' ->].
  destruct (for_acc post acc (attachment_turn w) st') as [[r st''] log''].
  reflexivity.
Qed.

(** An empty file in front of [b.txt]: the output is that of [b.txt] alone. *)
Lemma unfetched_attachment_has_no_entry_witness :
  result_of (summarize_attachments (H := ascii_only) (H0 := ascii_codec)
               empty_file_world
               ([] ++ mk_attachment (text_of "9") (text_of "empty.txt")
                   :: [mk_attachment (text_of "2") (text_of "b.txt")])
               initial_session)
  = result_of (summarize_attachments (H := ascii_only) (H0 := ascii_codec)
                 empty_file_world
                 ([] ++ [mk_attachment (text_of "2") (text_of "b.txt")])
                 initial_session).
Proof.
  apply (unfetched_attachment_has_no_entry (H := ascii_only) (H0 := ascii_codec)
           empty_file_world
           (mk_attachment (text_of "9") (text_of "empty.txt"))
           (text_of "empty.txt") []
           [mk_attachment (text_of "2") (text_of "b.txt")] initial_session).
  - reflexivity.
  - vm_compute. reflexivity.
  - right. left. exists (text_of "9"). split; reflexivity.
Defined.

(** * Further properties *)

(** ** Redactor *)

Section RedactorFacts.
Context `{UnicodeData}.

Lemma quiet_in_at p prev (w s : text) i :
  quiet_in p prev w s → (i < length w)%nat →
  run p (last_of prev (take i w)) (drop i w ++ s) = None.
Proof.
  revert prev i. induction w as [|c w IH]; intros prev i Hq Hi; [simpl in Hi; lia|].
  destruct Hq as [Hr Hq]. destruct i as [|i]; [done|].
  cbn [take drop]. rewrite last_of_cons. apply IH; [done|simpl in Hi; lia].
Qed.

Lemma redact_quiet k (t : text) : quiet (pat k) None (redact_sensitive_info t).
Proof.
  rewrite redact_passes.
  change (quiet (pat k) None
            (re_sub (pat Ssn) (re_sub (pat Phone) (re_sub (pat Email) t)))).
  destruct k.
  - apply (re_sub_quiet_other Ssn Email), (re_sub_quiet_other Phone Email),
      (re_sub_quiet_own Email).
  - apply (re_sub_quiet_other Ssn Phone), (re_sub_quiet_own Phone).
  - apply (re_sub_quiet_own Ssn).
Qed.

(** X1. In the redacted text none of the three patterns matches at any
    position. *)
Theorem redact_leaves_no_match k (t : text) i :
  (i < length (redact_sensitive_info t))%nat →
  run (pat k) (last_of None (take i (redact_sensitive_info t)))
      (drop i (redact_sensitive_info t)) = None.
Proof.
  intros Hi. pose proof (redact_quiet k t) as Hq.
  apply (quiet_in_at _ _ _ [] i) in Hq; [|done]. by rewrite app_nil_r in Hq.
Qed.

(** Every match contains an at sign or a decimal digit. *)
Lemma matches_needs k prev s n :
  matches (pat k) prev s n →
  Exists (λ c, c = 64 ∨ is_digit c = true) (take n s).
Proof.
  intros Hm. destruct k.
  - inversion Hm as [|? ? ? ? Hb Hm1|]; subst.
    inversion Hm1 as [| |? ? ? ? ? w s0 n0 Hw Hlo Hhi Hm2]; subst.
    apply matches_lit in Hm2 as (s1 & n1 & -> & -> & _).
    rewrite take_app_add. apply Exists_app. right. cbn. constructor. by left.
  - apply matches_phone in Hm as (w & rest & -> & Hlen & -> & Hw).
    rewrite take_app_length' by done.
    destruct w as [|c w]; [done|]. inversion Hw; subst. constructor. by right.
  - apply matches_ssn in Hm
      as (a0 & a1 & a2 & b0 & b1 & c0 & c1 & c2 & c3 & rest & -> & -> & Hd).
    inversion Hd; subst. cbn. constructor. by right.
Qed.

Lemma plain_quiet k prev (t : text) :
  Forall (λ c, c ≠ 64 ∧ is_digit c = false) t → quiet (pat k) prev t.
Proof.
  unfold quiet. revert prev. induction t as [|c t IH]; intros prev Hall; [done|].
  split; [|apply IH; by inversion Hall].
  rewrite app_nil_r.
  destruct (run (pat k) prev (c :: t)) as [n|] eqn:Hr; [|done].
  apply run_sound, matches_needs in Hr.
  apply Exists_exists in Hr as (d & Hd & Hcase).
  apply (subseteq_take n (c :: t)) in Hd.
  rewrite Forall_forall in Hall. destruct (Hall d Hd) as [Hat Hdig].
  destruct Hcase; congruence.
Qed.

(** X2. A text with no at sign and no decimal digit is returned as it is. *)
Theorem redact_plain_text (t : text) :
  Forall (λ c, c ≠ 64 ∧ is_digit c = false) t →
  redact_sensitive_info t = t.
Proof.
  intros Hall. rewrite redact_passes.
  change (re_sub (pat Ssn) (re_sub (pat Phone) (re_sub (pat Email) t)) = t).
  rewrite (re_sub_quiet Email) by by apply plain_quiet.
  rewrite (re_sub_quiet Phone) by by apply plain_quiet.
  by rewrite (re_sub_quiet Ssn) by by apply plain_quiet.
Qed.
End RedactorFacts.

Lemma redact_plain_text_witness :
  redact_sensitive_info (H := ascii_only) (text_of "Server down since Monday; see KB article.")
  = text_of "Server down since Monday; see KB article.".
Proof.
  apply (redact_plain_text (H := ascii_only)).
  repeat (constructor; [split; [discriminate|reflexivity]|]). constructor.
Defined.

Section WholeMatches.
Context `{UnicodeData}.

Lemma token_stays k : re_sub (pat k) token = token.
Proof.
  apply re_sub_quiet. unfold quiet. apply token_quiet.
Qed.

Lemma re_sub_whole k (t : text) :
  run (pat k) None t = Some (length t) → re_sub (pat k) t = token.
Proof.
  intros Hr. unfold re_sub.
  assert (t ≠ []) as Hne.
  { intros ->. by apply run_productive in Hr. }
  rewrite <- (app_nil_r t) at 1. rewrite sub_from_hit; [|done|by rewrite app_nil_r].
  cbn [sub_from].
  destruct (run (pat k) (last_of None t) []) as [[|n]|] eqn:He;
    rewrite ?app_nil_r; try done.
  by apply run_productive in He.
Qed.

(** A whole-text phone or SSN match holds no at sign. *)
Lemma numeric_no_at q (t : text) :
  q ≠ Email → run (pat q) None t = Some (length t) →
  Forall (λ c, c ≠ 64) t.
Proof.
  intros Hq Hr. apply run_sound in Hr. destruct q; [done| |].
  - apply matches_phone in Hr as (w & rest & Heq & Hlen & Hn & Hw).
    assert (rest = []) as ->.
    { apply (f_equal length) in Heq. rewrite length_app in Heq.
      destruct rest; [done|simpl in Heq; lia]. }
    rewrite app_nil_r in Heq. subst.
    assert (is_digit 64 = false) as Hat by reflexivity.
    eapply Forall_impl; [exact Hw|]. intros c Hc ->. congruence.
  - apply matches_ssn in Hr
      as (a0 & a1 & a2 & b0 & b1 & c0 & c1 & c2 & c3 & rest & Heq & Hn & Hd).
    assert (rest = []) as ->.
    { apply (f_equal length) in Heq. rewrite length_app in Heq.
      destruct rest; [done|simpl in Heq; lia]. }
    rewrite app_nil_r in Heq. subst.
    repeat match goal with
           | Hall : Forall _ (_ :: _) |- _ => inversion Hall; clear Hall; subst
           end.
    assert (is_digit 64 = false) as Hat by reflexivity.
    repeat (constructor; [first [intros ->; congruence | discriminate]|]).
    constructor.
Qed.

Lemma email_needs_at prev (s : text) n :
  matches pat_email prev s n → 64 ∈ take n s.
Proof.
  intros Hm.
  inversion Hm as [|? ? ? ? Hb Hm1|]; subst.
  inversion Hm1 as [| |? ? ? ? ? w s0 n0 Hw Hlo Hhi Hm2]; subst.
  apply matches_lit in Hm2 as (s1 & n1 & -> & -> & _).
  rewrite take_app_add. apply elem_of_app. right. cbn. by left.
Qed.

Lemma no_at_email_quiet prev (t : text) :
  Forall (λ c, c ≠ 64) t → quiet pat_email prev t.
Proof.
  unfold quiet. revert prev. induction t as [|c t IH]; intros prev Hall; [done|].
  split; [|apply IH; by inversion Hall].
  rewrite app_nil_r.
  destruct (run pat_email prev (c :: t)) as [n|] eqn:Hr; [|done].
  apply run_sound, email_needs_at in Hr.
  apply (subseteq_take n (c :: t)) in Hr.
  rewrite Forall_forall in Hall. by destruct (Hall 64 Hr).
Qed.

Lemma redact_whole k (t : text) :
  run (pat k) None t = Some (length t) →
  redact_sensitive_info t = token.
Proof.
  intros Hr. rewrite redact_passes.
  change (re_sub (pat Ssn) (re_sub (pat Phone) (re_sub (pat Email) t)) = token).
  destruct k.
  - rewrite (re_sub_whole Email) by done.
    by rewrite (token_stays Phone), (token_stays Ssn).
  - rewrite (re_sub_quiet Email)
      by (apply no_at_email_quiet; by apply (numeric_no_at Phone)).
    rewrite (re_sub_whole Phone) by done. by rewrite (token_stays Ssn).
  - rewrite (re_sub_quiet Email)
      by (apply no_at_email_quiet; by apply (numeric_no_at Ssn)).
    rewrite (re_sub_quiet Phone).
    + by apply (re_sub_whole Ssn).
    + unfold quiet. apply (phone_quiet_in_ssn None None t [] []); [|done].
      by rewrite app_nil_r.
Qed.

(** X3. A text that is, from its first to its last character, one match of
    one of the three patterns is redacted to the token alone. *)
Theorem redact_whole_match k (t : text) :
  run (pat k) None t = Some (length t) →
  redact_sensitive_info t = token.
Proof. apply redact_whole. Qed.

Lemma ssn_needs_dash prev (s : text) n :
  matches pat_ssn prev s n → 45 ∈ take n s.
Proof.
  intros Hm. apply matches_ssn in Hm
    as (a0 & a1 & a2 & b0 & b1 & c0 & c1 & c2 & c3 & rest & -> & -> & Hd).
  cbn. set_solver.
Qed.

Lemma no_dash_ssn_quiet prev (t : text) :
  Forall (λ c, c ≠ 45) t → quiet pat_ssn prev t.
Proof.
  unfold quiet. revert prev. induction t as [|c t IH]; intros prev Hall; [done|].
  split; [|apply IH; by inversion Hall].
  rewrite app_nil_r.
  destruct (run pat_ssn prev (c :: t)) as [n|] eqn:Hr; [|done].
  apply run_sound, ssn_needs_dash in Hr.
  apply (subseteq_take n (c :: t)) in Hr.
  rewrite Forall_forall in Hall. by destruct (Hall 45 Hr).
Qed.

Lemma word_at_digits (w : text) :
  Forall (λ c, is_digit c = true) w → w ≠ [] → word_at w = true.
Proof.
  destruct 1 as [|c w Hc _]; [done|]. intros _. by apply is_digit_word.
Qed.

Lemma word_before_last_digit prev (w : text) :
  Forall (λ c, is_digit c = true) w → w ≠ [] →
  word_before (last_of prev w) = true.
Proof.
  intros Hw Hne. destruct (exists_last Hne) as (w' & c & ->).
  rewrite last_of_snoc. apply Forall_app in Hw as [_ Hc].
  inversion Hc; subst. by apply is_digit_word.
Qed.

(** Inside a run of digits the phone pattern matches only at the start of a
    run of exactly ten that no word character precedes. *)
Lemma phone_in_digits prev (s : text) n :
  Forall (λ c, is_digit c = true) s →
  run pat_phone prev s = Some n →
  word_before prev = false ∧ length s = 10%nat.
Proof.
  intros Hs Hr. apply run_sound in Hr.
  destruct (fenced_phone _ _ _ Hr) as (_ & Hb1 & Hb2 & _).
  apply matches_phone in Hr as (w & rest & -> & Hlen & -> & Hw).
  rewrite take_app_length', drop_app_length' in Hb2 by done.
  assert (w ≠ []) as Hne by (intros ->; done).
  unfold at_boundary in *.
  rewrite (word_before_last_digit prev w Hw Hne) in Hb2.
  rewrite (word_at_digits (w ++ rest)) in Hb1 by (by destruct w).
  split; [by destruct (word_before prev)|].
  destruct rest as [|c rest]; [by rewrite app_nil_r|].
  apply Forall_app in Hs as [_ Hrest]. inversion Hrest; subst.
  cbn in Hb2. rewrite is_digit_word in Hb2 by done. done.
Qed.

Lemma digits_phone_quiet prev (w : text) :
  Forall (λ c, is_digit c = true) w →
  word_before prev = true ∨ length w ≠ 10%nat →
  quiet pat_phone prev w.
Proof.
  unfold quiet. revert prev. induction w as [|c w IH]; intros prev Hw Hcase; [done|].
  split.
  - rewrite app_nil_r.
    destruct (run pat_phone prev (c :: w)) as [n|] eqn:Hr; [|done].
    destruct (phone_in_digits _ _ _ Hw Hr) as [Hp Hl].
    destruct Hcase; congruence.
  - inversion Hw; subst. apply IH; [done|]. left. by apply is_digit_word.
Qed.

Lemma run_phone_ten (w : text) :
  Forall (λ c, is_digit c = true) w → length w = 10%nat →
  run pat_phone None w = Some (length w).
Proof.
  intros Hw Hlen.
  assert (w ≠ []) as Hne by (intros ->; done).
  assert (matches pat_phone None (w ++ []) (length w + 0)) as Hm.
  { constructor.
    - rewrite app_nil_r. unfold at_boundary. by rewrite word_at_digits.
    - constructor; [done|lia|simpl; lia|].
      constructor; [|constructor].
      unfold at_boundary. by rewrite word_before_last_digit. }
  rewrite app_nil_r in Hm. apply run_complete in Hm as [n Hn].
  rewrite Hn. f_equal. apply run_sound, matches_phone in Hn
    as (? & ? & _ & _ & -> & _). done.
Qed.

(** X4. A text made of decimal digits and nothing else is replaced by the
    token when it has exactly ten of them and is returned unchanged
    otherwise. *)
Theorem redact_digit_run (w : text) :
  Forall (λ c, is_digit c = true) w →
  redact_sensitive_info w = if decide (length w = 10%nat) then token else w.
Proof.
  intros Hw. destruct (decide (length w = 10%nat)) as [Hlen|Hlen].
  - apply (redact_whole Phone). by apply run_phone_ten.
  - rewrite redact_passes.
    change (re_sub (pat Ssn) (re_sub (pat Phone) (re_sub (pat Email) w)) = w).
    assert (is_digit 64 = false) as Hat by reflexivity.
    assert (is_digit 45 = false) as Hdash by reflexivity.
    rewrite (re_sub_quiet Email).
    2:{ apply no_at_email_quiet. eapply Forall_impl; [exact Hw|].
        intros c Hc ->. congruence. }
    rewrite (re_sub_quiet Phone) by (apply digits_phone_quiet; auto).
    apply (re_sub_quiet Ssn). apply no_dash_ssn_quiet.
    eapply Forall_impl; [exact Hw|]. intros c Hc ->. congruence.
Qed.
End WholeMatches.

(** Eleven digits: one too many for the phone pattern. *)
Lemma redact_digit_run_witness :
  redact_sensitive_info (H := ascii_only) (text_of "15551234567")
  = text_of "15551234567".
Proof.
  apply (redact_digit_run (H := ascii_only) (text_of "15551234567")).
  repeat (constructor; [reflexivity|]). constructor.
Defined.

Lemma redact_whole_match_witness :
  redact_sensitive_info (H := ascii_only) (text_of "jane.doe+it@mail.example.org")
  = token.
Proof.
  apply (redact_whole_match (H := ascii_only) Email). vm_compute. reflexivity.
Defined.

(** ** Note aggregation on arbitrary notes *)

(** X5. For any list of notes the loop of [summarize_incident] returns the
    lines of the complete notes, in input order, writes one skip notice per
    incomplete note, in input order, and raises nothing. *)
Theorem combine_notes_skips (notes : list record) (st : session) :
  combine_notes notes st
  = (Done (concat (line_of <$> filter complete notes)), st,
     EvWrite skip_notice <$> filter (λ n, ¬ complete n) notes).
Proof. unfold combine_notes. by rewrite combine_notes_from. Qed.

(** X6. The loop of [fetch_detailed_resolution_steps] returns the same text
    as the loop of [summarize_incident] on every list of notes, and writes
    nothing. *)
Theorem resolution_loop_agrees (notes : list record) (st : session) :
  result_of (combine_notes_for_resolution notes st)
    = result_of (combine_notes notes st)
  ∧ log_of (combine_notes_for_resolution notes st) = [].
Proof.
  unfold combine_notes, combine_notes_for_resolution.
  by rewrite combine_notes_from, combine_notes_for_resolution_from.
Qed.

(** ** Ticketing client: the list queries *)

Lemma fetch_incident_notes_run (w : world) (id : text) (st : session) :
  json_result (http_table w (GetNotes id)) ≠ None
  ∨ status_code (http_table w (GetNotes id)) ≠ 200%Z →
  fetch_incident_notes w id st
  = (Done (if (status_code (http_table w (GetNotes id)) =? 200)%Z
           then default [] (default None (json_result (http_table w (GetNotes id))))
           else []),
     st, [EvHttp (GetNotes id)]).
Proof.
  intros Hok. unfold fetch_incident_notes. rewrite run_bind. simpl.
  destruct (status_code (http_table w (GetNotes id)) =? 200)%Z eqn:Hs; [|done].
  destruct (json_result (http_table w (GetNotes id))) as [[[|first rest]|]|] eqn:Hj;
    try done.
  destruct Hok as [Hok|Hok]; [done|]. by apply Z.eqb_eq in Hs.
Qed.

Lemma fetch_attachments_run (w : world) (id : text) (st : session) :
  json_result (http_table w (GetAttachments id)) ≠ None
  ∨ status_code (http_table w (GetAttachments id)) ≠ 200%Z →
  fetch_attachments w id st
  = (Done (if (status_code (http_table w (GetAttachments id)) =? 200)%Z
           then default [] (default None (json_result (http_table w (GetAttachments id))))
           else []),
     st, [EvHttp (GetAttachments id)]).
Proof.
  intros Hok. unfold fetch_attachments. rewrite run_bind. simpl.
  destruct (status_code (http_table w (GetAttachments id)) =? 200)%Z eqn:Hs; [|done].
  destruct (json_result (http_table w (GetAttachments id))) as [[[|first rest]|]|] eqn:Hj;
    try done.
  destruct Hok as [Hok|Hok]; [done|]. by apply Z.eqb_eq in Hs.
Qed.

(** X7. [fetch_incident_notes] and [fetch_attachments] make one request each;
    on status 200 they return the result list as it came, whatever its
    length, and on any other status the empty list, raising nothing. *)
Theorem fetch_lists_outcome (w : world) (id : text) (st : session) :
  (∀ l, status_code (http_table w (GetNotes id)) = 200%Z →
        json_result (http_table w (GetNotes id)) = Some (Some l) →
        fetch_incident_notes w id st = (Done l, st, [EvHttp (GetNotes id)]))
  ∧ (status_code (http_table w (GetNotes id)) ≠ 200%Z →
     fetch_incident_notes w id st = (Done [], st, [EvHttp (GetNotes id)]))
  ∧ (∀ l, status_code (http_table w (GetAttachments id)) = 200%Z →
          json_result (http_table w (GetAttachments id)) = Some (Some l) →
          fetch_attachments w id st = (Done l, st, [EvHttp (GetAttachments id)]))
  ∧ (status_code (http_table w (GetAttachments id)) ≠ 200%Z →
     fetch_attachments w id st = (Done [], st, [EvHttp (GetAttachments id)])).
Proof.
  split; [|split; [|split]].
  - intros l Hs Hj. rewrite fetch_incident_notes_run by (left; by rewrite Hj).
    by rewrite Hs, Hj.
  - intros Hs. rewrite fetch_incident_notes_run by by right.
    apply Z.eqb_neq in Hs. by rewrite Hs.
  - intros l Hs Hj. rewrite fetch_attachments_run by (left; by rewrite Hj).
    by rewrite Hs, Hj.
  - intros Hs. rewrite fetch_attachments_run by by right.
    apply Z.eqb_neq in Hs. by rewrite Hs.
Qed.

Lemma fetch_lists_outcome_witness :
  fetch_incident_notes ticket_world (text_of "def456") initial_session
    = (Done open_notes, initial_session, [EvHttp (GetNotes (text_of "def456"))])
  ∧ fetch_incident_notes (const_world 500 None 200 []) (text_of "def456")
      initial_session
    = (Done [], initial_session, [EvHttp (GetNotes (text_of "def456"))])
  ∧ fetch_attachments four_files_world (text_of "def456") initial_session
    = (Done [], initial_session, [EvHttp (GetAttachments (text_of "def456"))])
  ∧ fetch_attachments (const_world 401 None 200 []) (text_of "def456")
      initial_session
    = (Done [], initial_session, [EvHttp (GetAttachments (text_of "def456"))]).
Proof.
  split; [|split; [|split]].
  - apply (proj1 (fetch_lists_outcome ticket_world (text_of "def456")
                    initial_session)); reflexivity.
  - apply (proj1 (proj2 (fetch_lists_outcome (const_world 500 None 200 [])
                           (text_of "def456") initial_session))).
    simpl. lia.
  - apply (proj1 (proj2 (proj2 (fetch_lists_outcome four_files_world
                                  (text_of "def456") initial_session))));
      reflexivity.
  - apply (proj2 (proj2 (proj2 (fetch_lists_outcome (const_world 401 None 200 [])
                                  (text_of "def456") initial_session)))).
    simpl. lia.
Defined.

(** ** The two summarizers *)

Lemma getitem_run (d : record) (k : string) (st : session) :
  getitem d k st
  = (match d !! k with Some v => Done v | None => Raised (KeyError k) end, st, []).
Proof. unfold getitem. by destruct (d !! k). Qed.

Lemma summarize_text_eq (w : world) (t task : text) (st : session) :
  summarize_text w t task st
  = (Done (reply_value (openai_completion w (completion_prompt task t))), st,
     EvCompletion (completion_prompt task t)
       :: reply_errors (openai_completion w (completion_prompt task t))).
Proof.
  unfold summarize_text. fold (completion_prompt task t).
  rewrite run_bind. simpl.
  destruct (openai_completion w (completion_prompt task t)) as [e|result]; [|done].
  rewrite run_bind. reflexivity.
Qed.

Lemma filter_model_call_writes (notes : list record) :
  filter (λ ev, is_model_call ev = true) (EvWrite skip_notice <$> notes) = [].
Proof.
  induction notes as [|n notes IH]; [done|].
  rewrite fmap_cons, filter_cons_False by (simpl; discriminate). exact IH.
Qed.

Lemma filter_model_call_errors (reply : text + text) :
  filter (λ ev, is_model_call ev = true) (reply_errors reply) = [].
Proof. by destruct reply. Qed.

Section Summarizers.
Context `{UnicodeData}.
Variable w : world.

Lemma summarize_incident_run (data : record) (notes : list record) (st : session) :
  let prompt := completion_prompt (text_of "Summarize") (cleaned_notes_of notes) in
  summarize_incident w data notes st
  = (match data !! "number", data !! "description", data !! "priority",
           data !! "resolved_at", data !! "opened_at", data !! "state" with
     | Some number, Some description, Some priority,
       Some resolved_at, Some opened_at, Some state =>
         Done ({| sum_number := number; sum_description := description;
                  sum_priority := priority; sum_resolved_at := resolved_at;
                  sum_opened_at := opened_at; sum_state := state_name state |},
               reply_value (openai_completion w prompt))
     | None, _, _, _, _, _ => Raised (KeyError "number")
     | _, None, _, _, _, _ => Raised (KeyError "description")
     | _, _, None, _, _, _ => Raised (KeyError "priority")
     | _, _, _, None, _, _ => Raised (KeyError "resolved_at")
     | _, _, _, _, None, _ => Raised (KeyError "opened_at")
     | _, _, _, _, _, None => Raised (KeyError "state")
     end,
     st,
     (EvWrite skip_notice <$> filter (λ n, ¬ complete n) notes)
       ++ EvCompletion prompt :: reply_errors (openai_completion w prompt)).
Proof.
  intros prompt. unfold summarize_incident.
  rewrite run_bind. unfold combine_notes. rewrite combine_notes_from.
  rewrite run_bind, summarize_text_eq.
  fold (cleaned_notes_of notes). fold prompt.
  rewrite run_bind, getitem_run.
  destruct (data !! "number"); [|by rewrite !app_nil_r].
  rewrite run_bind, getitem_run.
  destruct (data !! "description"); [|by rewrite !app_nil_r].
  rewrite run_bind, getitem_run.
  destruct (data !! "priority"); [|by rewrite !app_nil_r].
  rewrite run_bind, getitem_run.
  destruct (data !! "resolved_at"); [|by rewrite !app_nil_r].
  rewrite run_bind, getitem_run.
  destruct (data !! "opened_at"); [|by rewrite !app_nil_r].
  rewrite run_bind, getitem_run.
  destruct (data !! "state"); [|by rewrite !app_nil_r].
  subst prompt. unfold cleaned_notes_of, complete.
  cbn -[redact_sensitive_info completion_prompt state_name line_of filter].
  by rewrite !app_nil_r.
Qed.

(** X8. Whatever the incident record holds, [summarize_incident] makes exactly
    one model call, and the notes in its prompt are the redacted lines of the
    complete notes: the unredacted text never reaches the model. *)
Theorem summarize_incident_sends_redacted
    (data : record) (notes : list record) (st : session) :
  filter (λ ev, is_model_call ev = true)
    (log_of (summarize_incident w data notes st))
  = [EvCompletion (completion_prompt (text_of "Summarize")
       (redact_sensitive_info (concat (line_of <$> filter complete notes))))].
Proof.
  rewrite summarize_incident_run. unfold log_of. cbn [snd].
  rewrite filter_app, filter_model_call_writes, filter_cons_True by done.
  by rewrite filter_model_call_errors.
Qed.

(** X9. When the incident record lacks one of the keys of the summary,
    [summarize_incident] raises [KeyError] for the first missing one in the
    order number, description, priority, resolved_at, opened_at, state, and
    it does so after the model call has been made. *)
Theorem summarize_incident_missing_key
    (data : record) (notes : list record) (st : session)
    (present : list string) (key : string) (later : list string) :
  summary_keys = present ++ key :: later →
  Forall (λ k, is_Some (data !! k)) present →
  data !! key = None →
  result_of (summarize_incident w data notes st) = Raised (KeyError key)
  ∧ EvCompletion (completion_prompt (text_of "Summarize") (cleaned_notes_of notes))
    ∈ log_of (summarize_incident w data notes st).
Proof.
  intros Hkeys Hpresent Hmissing.
  rewrite summarize_incident_run. unfold result_of, log_of. cbn [fst snd].
  split; [|set_solver].
  unfold summary_keys in Hkeys.
  do 6 (destruct present as [|? present];
          [cbn [app] in Hkeys; simplify_eq;
           repeat match goal with
                  | Hp : Forall _ (_ :: _) |- _ => inversion Hp; clear Hp; subst
                  | Hs : is_Some (data !! _) |- _ => destruct Hs as [? ->]
                  end;
           by rewrite Hmissing|]).
  cbn [app] in Hkeys. simplify_eq. by destruct present.
Qed.
End Summarizers.

(** The example incident without its description. *)
Lemma summarize_incident_missing_key_witness :
  result_of (summarize_incident (H := ascii_only) ticket_world
               (delete "description" open_incident) open_notes initial_session)
  = Raised (KeyError "description").
Proof.
  apply (summarize_incident_missing_key (H := ascii_only) ticket_world
           (delete "description" open_incident) open_notes initial_session
           ["number"] "description"
           ["priority"; "resolved_at"; "opened_at"; "state"]).
  - reflexivity.
  - repeat constructor. by eexists.
  - reflexivity.
Defined.

Section ResolutionSteps.
Context `{UnicodeData}.
Variable w : world.

Lemma fetch_detailed_resolution_steps_run
    (data : record) (notes : list record) (st : session) :
  fetch_detailed_resolution_steps w data notes st
  = match data !! "number" with
    | Some number =>
        (Done (reply_value (openai_chat w
                 (steps_prompt number (cleaned_notes_of notes)))),
         st,
         EvChat (steps_prompt number (cleaned_notes_of notes))
           :: reply_errors (openai_chat w
                (steps_prompt number (cleaned_notes_of notes))))
    | None => (Done None, st, [EvError (error_prefix ++ text_of "'number'")])
    end.
Proof.
  unfold fetch_detailed_resolution_steps.
  rewrite run_bind. unfold combine_notes_for_resolution.
  rewrite combine_notes_for_resolution_from.
  unfold cleaned_notes_of, complete. cbn [app].
  destruct (data !! "number") as [number|].
  - fold (steps_prompt number
            (redact_sensitive_info
               (concat (line_of <$> filter (λ n, has_required_fields n = true) notes)))).
    rewrite run_bind.
    destruct (openai_chat w _) as [e|steps]; [|done].
    cbn -[steps_prompt redact_sensitive_info]. reflexivity.
  - rewrite run_bind. reflexivity.
Qed.

(** X10. With a ["number"] in the incident record,
    [fetch_detailed_resolution_steps] makes one chat call whose prompt holds
    the incident number and the redacted lines of the complete notes, returns
    the reply, or [None] with an error message when the call fails, and logs
    nothing else: no skip notice, no other call. *)
Theorem resolution_steps_sends_redacted
    (data : record) (number : text) (notes : list record) (st : session) :
  data !! "number" = Some number →
  let prompt :=
    steps_prompt number
      (redact_sensitive_info (concat (line_of <$> filter complete notes))) in
  fetch_detailed_resolution_steps w data notes st
  = (Done (reply_value (openai_chat w prompt)), st,
     EvChat prompt :: reply_errors (openai_chat w prompt)).
Proof.
  intros Hnumber prompt. rewrite fetch_detailed_resolution_steps_run.
  by rewrite Hnumber.
Qed.

(** X11. Without a ["number"] in the incident record,
    [fetch_detailed_resolution_steps] makes no model call and raises nothing:
    the [KeyError] is caught, shown as "An error occurred: 'number'", and the
    result is [None]. *)
Theorem resolution_steps_missing_number
    (data : record) (notes : list record) (st : session) :
  data !! "number" = None →
  fetch_detailed_resolution_steps w data notes st
  = (Done None, st, [EvError (text_of "An error occurred: 'number'")]).
Proof.
  intros Hnumber. rewrite fetch_detailed_resolution_steps_run.
  by rewrite Hnumber.
Qed.
End ResolutionSteps.

Lemma resolution_steps_sends_redacted_witness :
  fetch_detailed_resolution_steps (H := ascii_only) ticket_world
    open_incident open_notes initial_session
  = (Done (Some (text_of "steps")), initial_session,
     [EvChat (steps_prompt (text_of "INC0010002")
        (text_of "Work Note (2024-05-01 09:00:00): User [REDACTED] called from [REDACTED]"
           ++ nl))]).
Proof.
  rewrite (resolution_steps_sends_redacted (H := ascii_only) ticket_world
             open_incident (text_of "INC0010002") open_notes initial_session
             eq_refl).
  vm_compute. reflexivity.
Defined.

Lemma resolution_steps_missing_number_witness :
  fetch_detailed_resolution_steps (H := ascii_only) ticket_world
    (delete "number" open_incident) open_notes initial_session
  = (Done None, initial_session,
     [EvError (text_of "An error occurred: 'number'")]).
Proof.
  apply (resolution_steps_missing_number (H := ascii_only) ticket_world
           (delete "number" open_incident) open_notes initial_session).
  reflexivity.
Defined.

(** ** State codes *)

Lemma state_mapping_lookup (code name : text) :
  state_mapping !! code = Some name →
  (code, name) ∈
    [(text_of "1", text_of "New"); (text_of "2", text_of "In Progress");
     (text_of "3", text_of "On Hold"); (text_of "4", text_of "Awaiting Info");
     (text_of "5", text_of "Resolved"); (text_of "6", text_of "Closed");
     (text_of "7", text_of "Canceled")].
Proof. unfold state_mapping. apply elem_of_list_to_map_2. Qed.

(** X12. The states for which Resolution Steps refuses to run are exactly the
    codes that [state_mapping] names Resolved, Closed or Canceled. *)
Theorem closed_states_are_named (state : text) :
  state ∈ closed_states
  ↔ state_name state ∈ [text_of "Resolved"; text_of "Closed"; text_of "Canceled"].
Proof.
  split.
  - unfold closed_states. intros Hin.
    repeat (apply elem_of_cons in Hin as [->|Hin];
            [by apply (bool_decide_unpack _)|]).
    by apply elem_of_nil in Hin.
  - unfold state_name. intros Hname.
    destruct (state_mapping !! state) as [name|] eqn:Hlookup; simpl in Hname.
    + apply state_mapping_lookup in Hlookup.
      repeat (apply elem_of_cons in Hlookup as [[= -> ->]|Hlookup];
              [first [by apply (bool_decide_unpack _)
                     |apply (bool_decide_pack _) in Hname; by vm_compute in Hname]|]).
      by apply elem_of_nil in Hlookup.
    + apply (bool_decide_pack _) in Hname. by vm_compute in Hname.
Qed.

(** ** Button handlers *)

Lemma fetch_incident_data_any (w : world) (number : text) (st : session) :
  ∃ r, fetch_incident_data w number st = (r, st, [EvHttp (GetIncident number)])
       ∧ ∀ st', fetch_incident_data w number st'
               = (r, st', [EvHttp (GetIncident number)]).
Proof.
  unfold fetch_incident_data.
  destruct (status_code (http_table w (GetIncident number)) =? 200)%Z;
    [|by eexists].
  destruct (json_result (http_table w (GetIncident number))) as [[[|first rest]|]|];
    by eexists.
Qed.

Lemma fetch_incident_notes_any (w : world) (id : text) (st : session) :
  ∃ r, fetch_incident_notes w id st = (r, st, [EvHttp (GetNotes id)]).
Proof.
  unfold fetch_incident_notes.
  destruct (status_code (http_table w (GetNotes id)) =? 200)%Z; [|by eexists].
  destruct (json_result (http_table w (GetNotes id))) as [[[|first rest]|]|];
    by eexists.
Qed.

Lemma fetch_incident_data_not_json (w : world) (number : text) (st : session) :
  status_code (http_table w (GetIncident number)) = 200%Z →
  json_result (http_table w (GetIncident number)) = None →
  fetch_incident_data w number st
  = (Raised JSONDecodeError, st, [EvHttp (GetIncident number)]).
Proof.
  intros Hs Hj. unfold fetch_incident_data. rewrite run_bind. simpl.
  by rewrite Hs, Hj.
Qed.

Lemma truthy_with_key (data : record) (k : string) (v : text) :
  data !! k = Some v → truthy data = true.
Proof.
  intros Hk. apply bool_decide_eq_true_2. intros ->.
  by rewrite lookup_empty in Hk.
Qed.

Lemma log_bind_head {A B} (m : M A) (f : A → M B) st e l :
  log_of (m st) = e :: l → ∃ rest, log_of ((m ≫= f) st) = e :: rest.
Proof.
  rewrite run_bind. destruct (m st) as [[[a|err] s] lg]; cbn; intros ->.
  - destruct (f a s) as [[r s'] lg']. by eexists.
  - by eexists.
Qed.

Lemma log_modify_bind {B} (g : session → session) (f : unit → M B) st :
  log_of ((modify g ≫= f) st) = log_of (f tt (g st)).
Proof. rewrite run_bind. cbn. by destruct (f tt (g st)) as [[r s] lg]. Qed.

Section Handlers.
Context `{UnicodeData}.
Variable w : world.

(** X13. When the incident query answers 200 with a body that is not JSON,
    both handlers raise the decoding error: Summarize Incident has by then
    stored the entered identifier, Resolution Steps has changed nothing, and
    neither shows a message. *)
Theorem handlers_raise_on_bad_body (entered : text) (st : session) :
  entered ≠ [] →
  status_code (http_table w (GetIncident entered)) = 200%Z →
  json_result (http_table w (GetIncident entered)) = None →
  on_summarize w entered st
    = (Raised JSONDecodeError, set_incident_number (Some entered) st,
       [EvHttp (GetIncident entered)])
  ∧ on_resolution_steps w entered st
    = (Raised JSONDecodeError, st, [EvHttp (GetIncident entered)]).
Proof.
  intros Hne Hs Hj. split.
  - unfold on_summarize. rewrite bool_decide_eq_true_2 by done.
    rewrite run_bind. simpl.
    by rewrite run_bind, (fetch_incident_data_not_json _ _ _ Hs Hj).
  - unfold on_resolution_steps. rewrite bool_decide_eq_true_2 by done.
    by rewrite run_bind, (fetch_incident_data_not_json _ _ _ Hs Hj).
Qed.

(** X14. When the lookup finds an incident that has a [sys_id] and the six
    keys of the summary, Summarize Incident stores the entered identifier,
    the incident, its notes and the model's summary ([None] when the call
    failed) and clears the resolution steps held before; it asks for the
    incident, then the notes, then the summary. *)
Theorem summarize_found (entered : text) (data : record) (others : list record)
    (id : text) (notes : list record) (st : session) :
  entered ≠ [] →
  status_code (http_table w (GetIncident entered)) = 200%Z →
  json_result (http_table w (GetIncident entered)) = Some (Some (data :: others)) →
  data !! "sys_id" = Some id →
  Forall (λ k, is_Some (data !! k)) summary_keys →
  (∀ st', fetch_incident_notes w id st' = (Done notes, st', [EvHttp (GetNotes id)])) →
  let prompt := completion_prompt (text_of "Summarize") (cleaned_notes_of notes) in
  on_summarize w entered st
  = (Done tt,
     {| incident_data := Some data; incident_notes := Some notes;
        summarized_notes := reply_value (openai_completion w prompt);
        resolution_steps := None; incident_number := Some entered |},
     [EvHttp (GetIncident entered); EvHttp (GetNotes id)]
       ++ (EvWrite skip_notice <$> filter (λ n, ¬ complete n) notes)
       ++ EvCompletion prompt :: reply_errors (openai_completion w prompt)).
Proof.
  intros Hne Hs Hj Hid Hkeys Hnotes prompt. unfold on_summarize.
  rewrite bool_decide_eq_true_2 by done.
  rewrite run_bind. simpl.
  rewrite run_bind, (fetch_incident_data_hit _ _ _ _ _ Hs Hj).
  rewrite (truthy_with_key _ _ _ Hid).
  rewrite run_bind, (getitem_some _ _ _ _ Hid).
  rewrite run_bind, Hnotes.
  rewrite run_bind, summarize_incident_run.
  unfold summary_keys in Hkeys.
  repeat match goal with
         | Hp : Forall _ (_ :: _) |- _ => inversion Hp; clear Hp; subst
         | Hk : is_Some (data !! _) |- _ => destruct Hk as [? ->]
         end.
  cbn -[completion_prompt cleaned_notes_of filter]. fold prompt.
  by rewrite app_nil_r.
Qed.

(** X15. For an incident that is not resolved, closed or canceled, Resolution
    Steps stores the incident, its notes and the steps, and leaves the
    summary and the stored identifier as they were, also when the entered
    identifier is another one than the stored. *)
Theorem resolution_steps_open_incident (entered : text) (data : record)
    (others : list record) (state id : text) (notes : list record)
    (st : session) :
  entered ≠ [] →
  status_code (http_table w (GetIncident entered)) = 200%Z →
  json_result (http_table w (GetIncident entered)) = Some (Some (data :: others)) →
  data !! "state" = Some state →
  state ∉ closed_states →
  data !! "sys_id" = Some id →
  (∀ st', fetch_incident_notes w id st' = (Done notes, st', [EvHttp (GetNotes id)])) →
  ∃ steps,
    result_of (fetch_detailed_resolution_steps w data notes st) = Done steps
    ∧ result_of (on_resolution_steps w entered st) = Done tt
    ∧ session_of (on_resolution_steps w entered st)
      = {| incident_data := Some data; incident_notes := Some notes;
           summarized_notes := summarized_notes st;
           resolution_steps := steps;
           incident_number := incident_number st |}.
Proof.
  intros Hne Hs Hj Hstate Hopen Hid Hnotes. unfold on_resolution_steps.
  rewrite bool_decide_eq_true_2 by done.
  rewrite run_bind, (fetch_incident_data_hit _ _ _ _ _ Hs Hj).
  rewrite (truthy_with_key _ _ _ Hid).
  rewrite run_bind, (getitem_some _ _ _ _ Hstate).
  rewrite bool_decide_eq_false_2 by done.
  rewrite run_bind, (getitem_some _ _ _ _ Hid).
  rewrite run_bind, Hnotes.
  rewrite run_bind, fetch_detailed_resolution_steps_run.
  destruct (data !! "number") as [number|]; by eexists.
Qed.

(** X16. When the lookup yields no record, Resolution Steps shows "Incident
    not found." and leaves the whole session, the stored identifier
    included, as it was. *)
Theorem resolution_steps_not_found (entered : text) (st : session) :
  entered ≠ [] →
  (status_code (http_table w (GetIncident entered)) ≠ 200%Z
   ∨ json_result (http_table w (GetIncident entered)) = Some None
   ∨ json_result (http_table w (GetIncident entered)) = Some (Some [])) →
  on_resolution_steps w entered st
  = (Done tt, st,
     [EvHttp (GetIncident entered); EvError (text_of "Incident not found.")]).
Proof.
  intros Hne Hmiss. unfold on_resolution_steps.
  rewrite bool_decide_eq_true_2 by done.
  by rewrite run_bind, (fetch_incident_data_miss _ _ _ Hmiss).
Qed.

(** X17. The handlers contact the backend exactly when an identifier was
    entered.  With nothing entered neither handler makes a request or
    changes the session: Resolution Steps asks for an incident number,
    Summarize Incident shows nothing at all.  With an identifier entered,
    the first thing each handler does is the incident query for it. *)
Theorem empty_identifier (entered : text) (st : session) :
  (entered = [] →
     on_summarize w entered st = (Done tt, st, [])
     ∧ on_resolution_steps w entered st
       = (Done tt, st, [EvError (text_of "Please enter an incident number.")]))
  ∧ (entered ≠ [] →
     ∃ after_summarize after_steps,
       log_of (on_summarize w entered st)
         = EvHttp (GetIncident entered) :: after_summarize
       ∧ log_of (on_resolution_steps w entered st)
         = EvHttp (GetIncident entered) :: after_steps).
Proof.
  split; [by intros ->|].
  intros Hne.
  destruct (fetch_incident_data_any w entered st) as (r & Hst & Hany).
  assert (∃ rest, log_of (on_summarize w entered st)
                  = EvHttp (GetIncident entered) :: rest) as [rest1 ->].
  { unfold on_summarize. rewrite bool_decide_eq_true_2 by done.
    rewrite log_modify_bind. eapply log_bind_head. by rewrite Hany. }
  assert (∃ rest, log_of (on_resolution_steps w entered st)
                  = EvHttp (GetIncident entered) :: rest) as [rest2 ->].
  { unfold on_resolution_steps. rewrite bool_decide_eq_true_2 by done.
    eapply log_bind_head. by rewrite Hst. }
  by eexists _, _.
Qed.
End Handlers.

(** ** The session across button presses *)

Section SessionInvariant.
Context `{UnicodeData}.

Lemma session_ok_identifier v st :
  session_ok st → session_ok (set_incident_number v st).
Proof. done. Qed.

Lemma truthy_nonempty (data : record) : truthy data = true → data ≠ ∅.
Proof. apply bool_decide_eq_true_1. Qed.

Lemma on_summarize_keeps_ok (w : world) (entered : text) (st : session) :
  session_ok st → session_ok (session_of (on_summarize w entered st)).
Proof.
  intros Hok. unfold on_summarize. case_bool_decide as Hne; [|done].
  rewrite run_bind. simpl.
  destruct (fetch_incident_data_any w entered (set_incident_number (Some entered) st))
    as (r & Hr & _).
  rewrite run_bind, Hr. destruct r as [[data|]|e]; try done.
  destruct (truthy data) eqn:Htruthy; [|done].
  rewrite run_bind, getitem_run.
  destruct (data !! "sys_id") as [id|] eqn:Hid; [|done].
  destruct (fetch_incident_notes_any w id (set_incident_number (Some entered) st))
    as (r & Hr').
  rewrite run_bind, Hr'. destruct r as [notes|e]; [|done].
  rewrite run_bind, summarize_incident_run.
  destruct (data !! "number"); [|done].
  destruct (data !! "description"); [|done].
  destruct (data !! "priority"); [|done].
  destruct (data !! "resolved_at"); [|done].
  destruct (data !! "opened_at"); [|done].
  destruct (data !! "state"); [|done].
  unfold session_ok, session_of. cbn. rewrite Hid.
  split; [by apply truthy_nonempty|]. split; by eexists.
Qed.

Lemma on_resolution_steps_keeps_ok (w : world) (entered : text) (st : session) :
  session_ok st → session_ok (session_of (on_resolution_steps w entered st)).
Proof.
  intros Hok. unfold on_resolution_steps. case_bool_decide as Hne; [|done].
  destruct (fetch_incident_data_any w entered st) as (r & Hr & _).
  rewrite run_bind, Hr. destruct r as [[data|]|e]; try done.
  destruct (truthy data) eqn:Htruthy; [|done].
  rewrite run_bind, getitem_run.
  destruct (data !! "state") as [state|] eqn:Hstate; [|done].
  case_bool_decide as Hclosed; [done|].
  rewrite run_bind, getitem_run.
  destruct (data !! "sys_id") as [id|] eqn:Hid; [|done].
  destruct (fetch_incident_notes_any w id st) as (r & Hr').
  rewrite run_bind, Hr'. destruct r as [notes|e]; [|done].
  rewrite run_bind, fetch_detailed_resolution_steps_run.
  unfold session_ok, session_of.
  destruct (data !! "number"); cbn; rewrite Hid;
    (split; [by apply truthy_nonempty|]; split; by eexists).
Qed.

Lemma handle_keeps_ok (w : world) (entered : text) (a : action) (st : session) :
  session_ok st → session_ok (session_of (handle w entered a st)).
Proof.
  destruct a; simpl.
  - apply on_summarize_keeps_ok.
  - done.
  - apply on_resolution_steps_keeps_ok.
Qed.

(** X18. After any series of button presses from the initial session,
    against any backends and with any entered texts, also when handlers
    raised on the way: either no incident is held and then no notes, summary
    or resolution steps are held, or the incident held is a non-empty record
    with a [sys_id] and its notes are held with it. *)
Theorem session_stays_ok (presses : list (world * text * action)) :
  session_ok (after_presses presses initial_session).
Proof.
  assert (∀ st, session_ok st → session_ok (after_presses presses st)) as Hall.
  { induction presses as [|[[w entered] a] presses IH]; intros st Hok; [done|].
    cbn [after_presses]. by apply IH, handle_keeps_ok. }
  by apply Hall.
Qed.
End SessionInvariant.

(** ** The page *)

Lemma run_pbind {A B} (m : P A) (f : A → P B) st :
  (m ≫= f) st =
  match m st with
  | (Done a, st', out) =>
      match f a st' with (r, st'', out') => (r, st'', out ++ out') end
  | (Raised e, st', out) => (Raised e, st', out)
  end.
Proof. reflexivity. Qed.

Lemma oblivious_ret {A} (a : A) : oblivious (mret a).
Proof. by exists (Done a), []. Qed.

Lemma oblivious_bind {A B} (m : M A) (f : A → M B) :
  oblivious m → (∀ a, oblivious (f a)) → oblivious (m ≫= f).
Proof.
  intros (r & log & Hm) Hf. destruct r as [a|e].
  - destruct (Hf a) as (r' & log' & Hfa). exists r', (log ++ log').
    intros st. by rewrite run_bind, Hm, Hfa.
  - exists (Raised e), log. intros st. by rewrite run_bind, Hm.
Qed.

Lemma oblivious_emit ev : oblivious (emit ev).
Proof. by exists (Done tt), [ev]. Qed.

Lemma oblivious_getitem (d : record) k : oblivious (getitem d k).
Proof. eexists _, _. intros st. apply getitem_run. Qed.

Lemma oblivious_for_acc {A S} (l : list A) (acc : S) (body : S → A → M S) :
  (∀ acc x, oblivious (body acc x)) → oblivious (for_acc l acc body).
Proof.
  intros Hbody. revert acc. induction l as [|x l IH]; intros acc.
  - apply oblivious_ret.
  - cbn [for_acc]. apply oblivious_bind; [apply Hbody|apply IH].
Qed.

Lemma poblivious_ret {A} (a : A) : poblivious (mret a).
Proof. by exists (Done a), []. Qed.

Lemma poblivious_bind {A B} (m : P A) (f : A → P B) :
  poblivious m → (∀ a, poblivious (f a)) → poblivious (m ≫= f).
Proof.
  intros (r & out & Hm) Hf. destruct r as [a|e].
  - destruct (Hf a) as (r' & out' & Hfa). exists r', (out ++ out').
    intros st. by rewrite run_pbind, Hm, Hfa.
  - exists (Raised e), out. intros st. by rewrite run_pbind, Hm.
Qed.

Lemma poblivious_lift {A} (m : M A) : oblivious m → poblivious (lift m).
Proof.
  intros (r & log & Hm). exists r, (inl <$> log). intros st.
  unfold lift. by rewrite Hm.
Qed.

Lemma poblivious_draw x : poblivious (draw x).
Proof. by exists (Done tt), [inr x]. Qed.

Lemma poblivious_pfor_each {A} (l : list A) (body : A → P unit) :
  (∀ x, poblivious (body x)) → poblivious (pfor_each l body).
Proof.
  intros Hbody. induction l as [|x l IH].
  - apply poblivious_ret.
  - cbn [pfor_each]. apply poblivious_bind; [apply Hbody|by intros _].
Qed.

Section PageFacts.
Context `{UnicodeData} `{Codec}.
Variable w : world.

Lemma oblivious_fetch_attachments id : oblivious (fetch_attachments w id).
Proof.
  unfold fetch_attachments. apply oblivious_bind; [apply oblivious_emit|].
  intros _. destruct (status_code _ =? 200)%Z; [|apply oblivious_ret].
  destruct (json_result _) as [[[|first rest]|]|]; try apply oblivious_ret.
  by exists (Raised JSONDecodeError), [].
Qed.

Lemma oblivious_fetch_attachment_data id : oblivious (fetch_attachment_data w id).
Proof.
  unfold fetch_attachment_data. apply oblivious_bind; [apply oblivious_emit|].
  intros _. destruct (file_status _ =? 200)%Z; apply oblivious_ret.
Qed.

Lemma oblivious_summarize_text t task : oblivious (summarize_text w t task).
Proof. eexists _, _. intros st. apply summarize_text_eq. Qed.

Lemma oblivious_attachment_turn summaries a :
  oblivious (attachment_turn w summaries a).
Proof.
  unfold attachment_turn.
  apply oblivious_bind; [apply oblivious_getitem|]. intros name.
  destruct (negb (is_image name)); [|apply oblivious_ret].
  destruct (has_key a "sys_id"); [|apply oblivious_ret].
  apply oblivious_bind; [apply oblivious_getitem|]. intros id.
  apply oblivious_bind; [apply oblivious_fetch_attachment_data|].
  intros [[|b bs]|]; try apply oblivious_ret.
  apply oblivious_bind; [apply oblivious_summarize_text|]. intros summary.
  apply oblivious_bind; [apply oblivious_getitem|]. intros name'.
  apply oblivious_ret.
Qed.

Lemma oblivious_summarize_attachments attachments :
  oblivious (summarize_attachments w attachments).
Proof. apply oblivious_for_acc, oblivious_attachment_turn. Qed.

(** No summary carries a ["sys_id"]: the download branch is never taken. *)
Lemma attachment_lines_run (s : attachment_summary) (st : session) :
  attachment_lines w s st
  = (Done tt, st,
     [inr (WText (text_of "Filename: " ++ summary_file_name s));
      inr (WText (text_of "Summary: " ++ py_str (summary_text s)))]).
Proof.
  unfold attachment_lines.
  assert (summary_dict s !! "sys_id" = None) as Hid by reflexivity.
  assert (summary_dict s !!! "File Name" = Some (summary_file_name s)) as ->
    by reflexivity.
  assert (summary_dict s !!! "Summary" = summary_text s) as Hsum.
  { unfold lookup_total, map_lookup_total.
    assert (summary_dict s !! "Summary" = Some (summary_text s)) as ->
      by reflexivity. done. }
  rewrite Hsum, Hid. rewrite bool_decide_eq_false_2 by (by intros [? ?]).
  reflexivity.
Qed.
End PageFacts.

Section PageListing.
Context `{UnicodeData} `{Codec}.
Variable w : world.

Lemma pfor_each_lines (summaries : list attachment_summary) (st : session) :
  pfor_each summaries (attachment_lines w) st
  = (Done tt, st, summaries ≫= summary_lines).
Proof.
  induction summaries as [|s summaries IH]; [done|].
  cbn [pfor_each]. rewrite run_pbind, attachment_lines_run, IH. reflexivity.
Qed.

(** X19. For a held incident with a [sys_id], the attachment part of the page
    asks for the attachment list; for an empty list it shows "No attachments
    found."; otherwise it shows "Attachments:", runs the summarizer, and then
    shows for each summary returned its file name and its summary, the word
    None standing for a summary whose model call failed. *)
Theorem attachments_block_listing (data : record) (id : text)
    (attachments : list record) (summaries : list attachment_summary)
    (log : list event) (st : session) :
  data !! "sys_id" = Some id →
  (∀ st', fetch_attachments w id st'
          = (Done attachments, st', [EvHttp (GetAttachments id)])) →
  summarize_attachments w attachments st = (Done summaries, st, log) →
  attachments_block w (Some data) st
  = (Done tt, st,
     inl (EvHttp (GetAttachments id))
       :: match attachments with
          | [] => [inr (WText (text_of "No attachments found."))]
          | _ :: _ =>
              inr (WText (text_of "Attachments:"))
                :: (inl <$> log) ++ (summaries ≫= summary_lines)
          end).
Proof.
  intros Hid Hfetch Hsum. unfold attachments_block.
  rewrite (truthy_with_key _ _ _ Hid).
  rewrite run_pbind. unfold lift at 1. rewrite (getitem_some _ _ _ _ Hid).
  rewrite run_pbind. unfold lift at 1. rewrite Hfetch.
  destruct attachments as [|a attachments]; [done|].
  rewrite run_pbind. cbn [draw].
  rewrite run_pbind. unfold lift at 1. rewrite Hsum.
  rewrite pfor_each_lines. reflexivity.
Qed.
End PageListing.

Lemma attachments_block_listing_witness :
  attachments_block (H := ascii_only) (H0 := ascii_codec) attachment_world
    (Some open_incident) open_session
  = (Done tt, open_session,
     [inl (EvHttp (GetAttachments (text_of "def456")));
      inr (WText (text_of "Attachments:"));
      inl (EvHttp (GetFile (text_of "2")));
      inl (EvCompletion (completion_prompt (text_of "Summarize") (text_of "hi")));
      inl (EvError (text_of "An error occurred: rate limit"));
      inr (WText (text_of "Filename: b.txt"));
      inr (WText (text_of "Summary: None"))]).
Proof.
  apply (attachments_block_listing (H := ascii_only) (H0 := ascii_codec)
           attachment_world open_incident (text_of "def456")
           [mk_attachment (text_of "2") (text_of "b.txt")]
           [{| summary_file_name := text_of "b.txt"; summary_text := None |}]
           [EvHttp (GetFile (text_of "2"));
            EvCompletion (completion_prompt (text_of "Summarize") (text_of "hi"));
            EvError (text_of "An error occurred: rate limit")]
           open_session).
  - reflexivity.
  - intros st'. reflexivity.
  - vm_compute. reflexivity.
Defined.

Lemma no_download_ret {A} (a : A) : no_download (mret a : P A).
Proof. intros st. constructor. Qed.

Lemma no_download_read : no_download read.
Proof. intros st. constructor. Qed.

Lemma no_download_lift {A} (m : M A) : no_download (lift m).
Proof.
  intros st. unfold lift, out_of. destruct (m st) as [[r st'] log]. cbn [snd].
  apply Forall_fmap. by apply Forall_true.
Qed.

Lemma no_download_draw x :
  is_download (inr x) = false → no_download (draw x).
Proof. intros Hx st. by repeat constructor. Qed.

Lemma no_download_bind {A B} (m : P A) (f : A → P B) :
  no_download m → (∀ a, no_download (f a)) → no_download (m ≫= f).
Proof.
  intros Hm Hf st. unfold out_of. rewrite run_pbind.
  specialize (Hm st). unfold out_of in Hm.
  destruct (m st) as [[[a|e] st'] out]; [|done].
  specialize (Hf a st'). unfold out_of in Hf.
  destruct (f a st') as [[r st''] out']. cbn [snd] in *. by apply Forall_app.
Qed.

Lemma no_download_pfor_each {A} (l : list A) (body : A → P unit) :
  (∀ x, no_download (body x)) → no_download (pfor_each l body).
Proof.
  intros Hbody. induction l as [|x l IH].
  - apply no_download_ret.
  - cbn [pfor_each]. apply no_download_bind; [apply Hbody|by intros _].
Qed.

Section PageAsAWhole.
Context `{UnicodeData} `{Codec}.
Variable w : world.

Lemma no_download_attachment_lines s : no_download (attachment_lines w s).
Proof.
  intros st. unfold out_of. rewrite attachment_lines_run. by repeat constructor.
Qed.

Lemma no_download_incident_block held summary steps :
  no_download (incident_block held summary steps).
Proof.
  unfold incident_block. destruct held as [data|]; [|apply no_download_ret].
  destruct (truthy data); [|apply no_download_ret].
  do 6 (apply no_download_bind; [apply no_download_lift|]; intros ?).
  apply no_download_bind; [by apply no_download_draw|]. intros _.
  apply no_download_bind.
  - destruct summary as [[|c t]|]; try apply no_download_ret.
    by apply no_download_draw.
  - intros _. destruct steps as [[|c t]|]; try apply no_download_ret.
    by apply no_download_draw.
Qed.

Lemma no_download_attachments_block held :
  no_download (attachments_block w held).
Proof.
  unfold attachments_block. destruct held as [data|]; [|apply no_download_ret].
  destruct (truthy data); [|apply no_download_ret].
  apply no_download_bind; [apply no_download_lift|]. intros id.
  apply no_download_bind; [apply no_download_lift|]. intros [|a attachments].
  - by apply no_download_draw.
  - apply no_download_bind; [by apply no_download_draw|]. intros _.
    apply no_download_bind; [apply no_download_lift|]. intros summaries.
    apply no_download_pfor_each, no_download_attachment_lines.
Qed.

Lemma no_download_show_page : no_download (show_page w).
Proof.
  unfold show_page.
  apply no_download_bind; [apply no_download_read|]. intros st.
  apply no_download_bind; [apply no_download_incident_block|]. intros _.
  apply no_download_bind; [apply no_download_read|]. intros st'.
  apply no_download_attachments_block.
Qed.

(** X20. No run of the script draws a download button, whatever the session,
    the backend, the entered text and the button pressed: the summaries the
    page loops over carry a file name and a summary but no ["sys_id"], so
    the branch that downloads the file and offers it is never taken. *)
Theorem script_draws_no_download (entered : text) (pressed : option action)
    (st : session) :
  Forall (λ o, is_download o = false) (out_of (script w entered pressed st)).
Proof.
  revert st. change (no_download (script w entered pressed)).
  unfold script. destruct pressed as [a|]; [|apply no_download_show_page].
  apply no_download_bind; [apply no_download_lift|]. intros _.
  apply no_download_show_page.
Qed.

Lemma poblivious_incident_block held summary steps :
  poblivious (incident_block held summary steps).
Proof.
  unfold incident_block. destruct held as [data|]; [|apply poblivious_ret].
  destruct (truthy data); [|apply poblivious_ret].
  do 6 (apply poblivious_bind;
        [apply poblivious_lift, oblivious_getitem|]; intros ?).
  apply poblivious_bind; [apply poblivious_draw|]. intros _.
  apply poblivious_bind.
  - destruct summary as [[|c t]|]; try apply poblivious_ret.
    apply poblivious_draw.
  - intros _. destruct steps as [[|c t]|]; try apply poblivious_ret.
    apply poblivious_draw.
Qed.

Lemma poblivious_attachments_block held : poblivious (attachments_block w held).
Proof.
  unfold attachments_block. destruct held as [data|]; [|apply poblivious_ret].
  destruct (truthy data); [|apply poblivious_ret].
  apply poblivious_bind; [apply poblivious_lift, oblivious_getitem|]. intros id.
  apply poblivious_bind; [apply poblivious_lift, oblivious_fetch_attachments|].
  intros [|a attachments]; [apply poblivious_draw|].
  apply poblivious_bind; [apply poblivious_draw|]. intros _.
  apply poblivious_bind;
    [apply poblivious_lift, oblivious_summarize_attachments|]. intros summaries.
  apply poblivious_pfor_each. intros s. eexists _, _. intros st.
  apply attachment_lines_run.
Qed.

Lemma show_page_run (st : session) :
  show_page w st
  = match incident_block (incident_data st) (summarized_notes st)
            (resolution_steps st) st with
    | (Done _, st1, out1) =>
        match attachments_block w (incident_data st1) st1 with
        | (r, st2, out2) => (r, st2, out1 ++ out2)
        end
    | (Raised e, st1, out1) => (Raised e, st1, out1)
    end.
Proof.
  unfold show_page. rewrite run_pbind. cbn [read app]. rewrite run_pbind.
  destruct (incident_block _ _ _ st) as [[[[]|e] st1] out1]; [|done].
  rewrite run_pbind. cbn [read app].
  by destruct (attachments_block w (incident_data st1) st1) as [[r st2] out2].
Qed.

(** The page depends on the session only through the incident, the summary
    and the resolution steps held, and leaves the session as it is. *)
Lemma show_page_fields (st st' : session) :
  incident_data st = incident_data st' →
  summarized_notes st = summarized_notes st' →
  resolution_steps st = resolution_steps st' →
  ∃ r out, show_page w st = (r, st, out) ∧ show_page w st' = (r, st', out).
Proof.
  intros Hd Hs Hr. rewrite !show_page_run.
  destruct (poblivious_incident_block (incident_data st) (summarized_notes st)
              (resolution_steps st)) as (r1 & out1 & H1).
  destruct (poblivious_attachments_block (incident_data st)) as (r2 & out2 & H2).
  rewrite <- Hd, <- Hs, <- Hr, !H1.
  destruct r1 as [[]|e]; [|by eexists _, _].
  rewrite <- Hd, !H2. by eexists _, _.
Qed.

Lemma on_summarize_miss (entered : text) (st : session) :
  entered ≠ [] →
  (status_code (http_table w (GetIncident entered)) ≠ 200%Z
   ∨ json_result (http_table w (GetIncident entered)) = Some None
   ∨ json_result (http_table w (GetIncident entered)) = Some (Some [])) →
  on_summarize w entered st
  = (Done tt, set_incident_number (Some entered) st,
     [EvHttp (GetIncident entered); EvError (text_of "Incident not found.")]).
Proof.
  intros Hne Hmiss. unfold on_summarize.
  rewrite bool_decide_eq_true_2 by done.
  rewrite run_bind. simpl.
  rewrite run_bind, (fetch_incident_data_miss _ _ _ Hmiss). reflexivity.
Qed.

Lemma on_resolution_steps_closed (entered : text) (data : record)
    (others : list record) (state : text) (st : session) :
  entered ≠ [] →
  status_code (http_table w (GetIncident entered)) = 200%Z →
  json_result (http_table w (GetIncident entered)) = Some (Some (data :: others)) →
  data !! "state" = Some state →
  state ∈ closed_states →
  on_resolution_steps w entered st
  = (Done tt, st, [EvHttp (GetIncident entered); EvInfo closed_notice]).
Proof.
  intros Hne Hs Hj Hstate Hclosed. unfold on_resolution_steps.
  rewrite bool_decide_eq_true_2 by done.
  rewrite run_bind, (fetch_incident_data_hit _ _ _ _ _ Hs Hj).
  rewrite (truthy_with_key _ _ _ Hstate).
  rewrite run_bind, (getitem_some _ _ _ _ Hstate).
  by rewrite bool_decide_eq_true_2.
Qed.

(** X21. Pressing Clear leaves, from any session, a session with nothing
    held and a page with nothing on it: the run makes no request and draws
    no widget.  More generally a run with no button pressed, on a session
    that holds no incident (or an empty record), draws nothing and does not
    contact the backend. *)
Theorem script_clear (entered : text) (st : session) :
  script w entered (Some PressClear) st = (Done tt, initial_session, [inl EvRerun])
  ∧ ∀ st', incident_data st' = None ∨ incident_data st' = Some ∅ →
           script w entered None st' = (Done tt, st', []).
Proof.
  split; [reflexivity|].
  assert (truthy ∅ = false) as Hempty.
  { apply bool_decide_eq_false_2. by intros Hne. }
  intros st' [Hheld|Hheld]; unfold script; rewrite show_page_run, Hheld;
    unfold incident_block; rewrite ?Hempty;
    change ((mret tt : P unit) st') with (Done tt, st', @nil (event + widget));
    cbn iota; rewrite Hheld; unfold attachments_block; by rewrite ?Hempty.
Qed.

(** X22. After a Summarize Incident whose lookup finds nothing, the page is
    drawn as for the session before the press: an incident loaded earlier
    stays on the page, with its summary and resolution steps, and its
    attachments are fetched and summarized again, below the message
    "Incident not found.". *)
Theorem script_summarize_miss (entered : text) (st : session) :
  entered ≠ [] →
  (status_code (http_table w (GetIncident entered)) ≠ 200%Z
   ∨ json_result (http_table w (GetIncident entered)) = Some None
   ∨ json_result (http_table w (GetIncident entered)) = Some (Some [])) →
  out_of (script w entered (Some PressSummarize) st)
  = [inl (EvHttp (GetIncident entered));
     inl (EvError (text_of "Incident not found."))]
    ++ out_of (show_page w st).
Proof.
  intros Hne Hmiss. unfold script, handle.
  rewrite run_pbind. unfold lift. rewrite (on_summarize_miss _ _ Hne Hmiss).
  destruct (show_page_fields st (set_incident_number (Some entered) st))
    as (r & out & -> & ->); done.
Qed.

End PageAsAWhole.

Section ClosedIncidentRun.
Context `{UnicodeData} `{Codec}.
Variable w : world.

Lemma events_of_app (out out' : list (event + widget)) :
  events_of (out ++ out') = events_of out ++ events_of out'.
Proof. apply omap_app. Qed.

Lemma events_of_inl (log : list event) : events_of (inl <$> log) = log.
Proof.
  induction log as [|ev log IH]; [done|].
  rewrite fmap_cons. unfold events_of in *. cbn. f_equal. exact IH.
Qed.

Lemma events_of_summary_lines (summaries : list attachment_summary) :
  events_of (summaries ≫= summary_lines) = [].
Proof.
  induction summaries as [|s summaries IH]; [done|].
  rewrite bind_cons, events_of_app, IH. reflexivity.
Qed.

(** The table and the two text areas: drawn without a request or a message
    when the incident has the six keys. *)
Lemma incident_block_table (held : record) (summary steps : option text)
    (st : session) :
  Forall (λ k, is_Some (held !! k)) table_keys →
  ∃ out, incident_block (Some held) summary steps st = (Done tt, st, out)
         ∧ events_of out = [].
Proof.
  intros Hkeys. unfold table_keys in Hkeys.
  repeat match goal with
         | Hall : Forall _ (_ :: _) |- _ => inversion Hall; clear Hall; subst
         end.
  repeat match goal with Hk : is_Some _ |- _ => destruct Hk as [? Hk] end.
  unfold incident_block.
  match goal with Hk : held !! "number" = Some _ |- _ =>
    rewrite (truthy_with_key _ _ _ Hk) end.
  repeat (rewrite run_pbind; unfold lift at 1;
          erewrite getitem_some by eassumption; cbn beta iota).
  destruct summary as [[|c t]|], steps as [[|c' t']|]; by eexists.
Qed.

(** The model calls of the attachment part are those of the summarizer. *)
Lemma attachments_block_calls (held : record) (id : text)
    (attachments : list record) (st : session) :
  held !! "sys_id" = Some id →
  status_code (http_table w (GetAttachments id)) = 200%Z →
  json_result (http_table w (GetAttachments id)) = Some (Some attachments) →
  Forall (λ a, is_Some (a !! "file_name")) attachments →
  ∃ out, attachments_block w (Some held) st = (Done tt, st, out)
    ∧ filter (λ ev, is_model_call ev = true) (events_of out)
      = (λ a, EvCompletion (completion_prompt (text_of "Summarize")
                              (utf8_decode_ignore (file_bytes w a))))
        <$> filter (λ a, reaches_summarization w a = true) attachments.
Proof.
  intros Hid Hs Hj Hnames.
  assert (∀ st', fetch_attachments w id st'
                 = (Done attachments, st', [EvHttp (GetAttachments id)]))
    as Hfetch.
  { intros st'. rewrite fetch_attachments_run by (left; by rewrite Hj).
    by rewrite Hs, Hj. }
  unfold attachments_block. rewrite (truthy_with_key _ _ _ Hid).
  rewrite run_pbind. unfold lift at 1. rewrite (getitem_some _ _ _ _ Hid).
  rewrite run_pbind. unfold lift at 1. rewrite Hfetch.
  destruct attachments as [|a attachments]; [by eexists|].
  destruct (summarize_attachments_from w (a :: attachments) [] st Hnames)
    as (entries & log & Hrun & _ & Hcalls).
  rewrite run_pbind. cbn [draw].
  rewrite run_pbind. unfold lift at 1. unfold summarize_attachments.
  rewrite Hrun, pfor_each_lines. eexists. split; [reflexivity|].
  rewrite !events_of_app, !events_of_inl, events_of_summary_lines.
  rewrite app_nil_r, filter_app, filter_app.
  rewrite <- Hcalls. reflexivity.
Qed.

(** X23. A Resolution Steps press for a resolved, closed or canceled incident
    makes no model call of its own, yet the run does.  When the session holds
    an incident with the keys of the table and a [sys_id], the run ends
    normally with the session unchanged, its output is the incident query
    and the notice followed by the page, and the model calls of the page are
    one "Summarize" prompt for each attachment of the held incident that is
    not an image and is downloaded with at least one byte. *)
Theorem script_closed_incident (entered : text) (data : record)
    (others : list record) (state : text) (held : record) (id : text)
    (attachments : list record) (st : session) :
  entered ≠ [] →
  status_code (http_table w (GetIncident entered)) = 200%Z →
  json_result (http_table w (GetIncident entered)) = Some (Some (data :: others)) →
  data !! "state" = Some state →
  state ∈ closed_states →
  incident_data st = Some held →
  Forall (λ k, is_Some (held !! k)) table_keys →
  held !! "sys_id" = Some id →
  status_code (http_table w (GetAttachments id)) = 200%Z →
  json_result (http_table w (GetAttachments id)) = Some (Some attachments) →
  Forall (λ a, is_Some (a !! "file_name")) attachments →
  ∃ page,
    script w entered (Some PressResolutionSteps) st
    = (Done tt, st,
       [inl (EvHttp (GetIncident entered)); inl (EvInfo closed_notice)] ++ page)
    ∧ filter (λ ev, is_model_call ev = true) (events_of page)
      = (λ a, EvCompletion (completion_prompt (text_of "Summarize")
                              (utf8_decode_ignore (file_bytes w a))))
        <$> filter (λ a, reaches_summarization w a = true) attachments.
Proof.
  intros Hne Hs Hj Hstate Hclosed Hheld Hkeys Hid Has Haj Hnames.
  unfold script, handle. rewrite run_pbind. unfold lift.
  rewrite (on_resolution_steps_closed w _ _ _ _ _ Hne Hs Hj Hstate Hclosed).
  rewrite show_page_run, Hheld.
  destruct (incident_block_table held (summarized_notes st) (resolution_steps st)
              st Hkeys) as (out1 & -> & Hout1).
  rewrite Hheld.
  destruct (attachments_block_calls held id attachments st Hid Has Haj Hnames)
    as (out2 & -> & Hout2).
  exists (out1 ++ out2). split; [reflexivity|].
  by rewrite events_of_app, Hout1.
Qed.
End ClosedIncidentRun.

(** ** Instances of the statements above *)

Lemma redact_leaves_no_match_witness :
  run (H := ascii_only) (pat (H := ascii_only) Email)
    (last_of None (take 5 (redact_sensitive_info (H := ascii_only) plain_ticket)))
    (drop 5 (redact_sensitive_info (H := ascii_only) plain_ticket))
  = None.
Proof.
  apply (redact_leaves_no_match (H := ascii_only) Email plain_ticket 5).
  vm_compute. lia.
Defined.

Lemma handlers_raise_on_bad_body_witness :
  on_summarize (H := ascii_only) html_world (text_of "INC0010002") initial_session
    = (Raised JSONDecodeError,
       set_incident_number (Some (text_of "INC0010002")) initial_session,
       [EvHttp (GetIncident (text_of "INC0010002"))])
  ∧ on_resolution_steps (H := ascii_only) html_world (text_of "INC0010002")
      initial_session
    = (Raised JSONDecodeError, initial_session,
       [EvHttp (GetIncident (text_of "INC0010002"))]).
Proof.
  apply (handlers_raise_on_bad_body (H := ascii_only) html_world
           (text_of "INC0010002") initial_session).
  - discriminate.
  - reflexivity.
  - reflexivity.
Defined.

Lemma summarize_found_witness :
  on_summarize (H := ascii_only) ticket_world (text_of "INC0010002") loaded_session
  = (Done tt,
     {| incident_data := Some open_incident; incident_notes := Some open_notes;
        summarized_notes := Some (text_of "summary");
        resolution_steps := None;
        incident_number := Some (text_of "INC0010002") |},
     [EvHttp (GetIncident (text_of "INC0010002"));
      EvHttp (GetNotes (text_of "def456"));
      EvWrite skip_notice note_without_value;
      EvCompletion (completion_prompt (text_of "Summarize")
        (text_of "Work Note (2024-05-01 09:00:00): User [REDACTED] called from [REDACTED]"
           ++ nl))]).
Proof.
  rewrite (summarize_found (H := ascii_only) ticket_world (text_of "INC0010002")
             open_incident [] (text_of "def456") open_notes loaded_session).
  - vm_compute. reflexivity.
  - discriminate.
  - reflexivity.
  - reflexivity.
  - reflexivity.
  - repeat (constructor; [by eexists|]). constructor.
  - intros st'. reflexivity.
Defined.

Lemma resolution_steps_open_incident_witness :
  ∃ steps,
    result_of (fetch_detailed_resolution_steps (H := ascii_only) ticket_world
                 open_incident open_notes loaded_session) = Done steps
    ∧ result_of (on_resolution_steps (H := ascii_only) ticket_world
                   (text_of "INC0010002") loaded_session) = Done tt
    ∧ session_of (on_resolution_steps (H := ascii_only) ticket_world
                    (text_of "INC0010002") loaded_session)
      = {| incident_data := Some open_incident;
           incident_notes := Some open_notes;
           summarized_notes := summarized_notes loaded_session;
           resolution_steps := steps;
           incident_number := incident_number loaded_session |}.
Proof.
  apply (resolution_steps_open_incident (H := ascii_only) ticket_world
           (text_of "INC0010002") open_incident [] (text_of "2")
           (text_of "def456") open_notes loaded_session).
  - discriminate.
  - reflexivity.
  - reflexivity.
  - reflexivity.
  - intros Hin. apply (bool_decide_pack _) in Hin. by vm_compute in Hin.
  - reflexivity.
  - intros st'. reflexivity.
Defined.

Lemma resolution_steps_not_found_witness :
  on_resolution_steps (H := ascii_only) (const_world 404 None 200 [])
    (text_of "INC0099999") loaded_session
  = (Done tt, loaded_session,
     [EvHttp (GetIncident (text_of "INC0099999"));
      EvError (text_of "Incident not found.")]).
Proof.
  apply (resolution_steps_not_found (H := ascii_only)
           (const_world 404 None 200 []) (text_of "INC0099999") loaded_session).
  - discriminate.
  - left. simpl. lia.
Defined.

Lemma empty_identifier_witness :
  ∃ after_summarize after_steps,
    log_of (on_summarize (H := ascii_only) ticket_world (text_of "INC0010002") initial_session)
      = EvHttp (GetIncident (text_of "INC0010002")) :: after_summarize
    ∧ log_of (on_resolution_steps (H := ascii_only) ticket_world (text_of "INC0010002") initial_session)
      = EvHttp (GetIncident (text_of "INC0010002")) :: after_steps.
Proof.
  apply (empty_identifier (H := ascii_only) ticket_world (text_of "INC0010002")
           initial_session).
  by vm_compute.
Defined.

Lemma script_clear_witness :
  script (H := ascii_only) (H0 := ascii_codec) ticket_world (text_of "INC0010002")
    None initial_session
  = (Done tt, initial_session, []).
Proof.
  apply (script_clear (H := ascii_only) (H0 := ascii_codec) ticket_world
           (text_of "INC0010002") loaded_session).
  by left.
Defined.

Lemma script_summarize_miss_witness :
  out_of (script (H := ascii_only) (H0 := ascii_codec)
            (const_world 404 None 200 []) (text_of "INC0099999")
            (Some PressSummarize) open_session)
  = [inl (EvHttp (GetIncident (text_of "INC0099999")));
     inl (EvError (text_of "Incident not found."))]
    ++ out_of (show_page (H := ascii_only) (H0 := ascii_codec)
                 (const_world 404 None 200 []) open_session).
Proof.
  apply (script_summarize_miss (H := ascii_only) (H0 := ascii_codec)
           (const_world 404 None 200 []) (text_of "INC0099999") open_session).
  - discriminate.
  - left. simpl. lia.
Defined.

Lemma script_closed_incident_witness :
  ∃ page,
    script (H := ascii_only) (H0 := ascii_codec) closed_ticket_world
      (text_of "INC0010001") (Some PressResolutionSteps) open_session
    = (Done tt, open_session,
       [inl (EvHttp (GetIncident (text_of "INC0010001")));
        inl (EvInfo closed_notice)] ++ page)
    ∧ filter (λ ev, is_model_call ev = true) (events_of page)
      = [EvCompletion (completion_prompt (text_of "Summarize") (text_of "hi"))].
Proof.
  apply (script_closed_incident (H := ascii_only) (H0 := ascii_codec)
           closed_ticket_world (text_of "INC0010001") resolved_incident []
           (text_of "6") open_incident (text_of "def456")
           [mk_attachment (text_of "2") (text_of "b.txt")] open_session).
  - discriminate.
  - reflexivity.
  - reflexivity.
  - reflexivity.
  - by apply (bool_decide_unpack _).
  - reflexivity.
  - repeat (constructor; [by eexists|]). constructor.
  - reflexivity.
  - reflexivity.
  - reflexivity.
  - repeat (constructor; [by eexists|]). constructor.
Defined.

(** ** More on the attachment summarizer *)

Section AttachmentEdges.
Context `{UnicodeData} `{Codec}.
Variable w : world.

(** X24. When an attachment has no [file_name], [summarize_attachments]
    raises [KeyError] for it and returns no summaries at all, although the
    attachments before it have been downloaded and summarized: their model
    calls are in the log. *)
Theorem summarize_attachments_missing_name
    (before_it : list record) (a : record) (after_it : list record)
    (st : session) :
  Forall (λ b, is_Some (b !! "file_name")) before_it →
  a !! "file_name" = None →
  result_of (summarize_attachments w (before_it ++ a :: after_it) st)
    = Raised (KeyError "file_name")
  ∧ filter (λ ev, is_model_call ev = true)
      (log_of (summarize_attachments w (before_it ++ a :: after_it) st))
    = (λ b, EvCompletion (completion_prompt (text_of "Summarize")
                            (utf8_decode_ignore (file_bytes w b))))
      <$> filter (λ b, reaches_summarization w b = true) before_it.
Proof.
  intros Hnames Hmissing.
  destruct (summarize_attachments_from w before_it [] st Hnames)
    as (entries & log & Hrun & _ & Hcalls).
  assert (summarize_attachments w (before_it ++ a :: after_it) st
          = (Raised (KeyError "file_name"), st, log)) as ->.
  { unfold summarize_attachments. rewrite for_acc_app, run_bind, Hrun.
    cbn [for_acc]. rewrite run_bind. unfold attachment_turn at 1.
    rewrite run_bind, getitem_run, Hmissing. by rewrite app_nil_r. }
  done.
Qed.

Lemma ascii_lower_char_ascii c :
  is_ascii c = true → is_ascii (ascii_lower_char c) = true.
Proof.
  unfold ascii_lower_char, ascii_upper, in_range, is_ascii.
  destruct ((65 <=? c) && (c <=? 90)) eqn:Hu; [|done].
  intros _. apply andb_true_iff in Hu as [_ Hhi].
  apply N.leb_le in Hhi. apply N.ltb_lt. lia.
Qed.

Lemma ascii_lower_char_idem c :
  ascii_lower_char (ascii_lower_char c) = ascii_lower_char c.
Proof.
  unfold ascii_lower_char. destruct (ascii_upper c) eqn:Hu; [|by rewrite Hu].
  assert (ascii_upper (c + 32) = false) as ->; [|done].
  unfold ascii_upper, in_range in *.
  apply andb_true_iff in Hu as [Hlo Hhi]. apply N.leb_le in Hlo, Hhi.
  apply andb_false_iff. right. apply N.leb_gt. lia.
Qed.

Lemma forallb_ascii (name : text) :
  Forall (λ c, is_ascii c = true) name → forallb is_ascii name = true.
Proof. induction 1 as [|c name Hc _ IH]; [done|]. simpl. by rewrite Hc. Qed.

Lemma lower_ascii_idem (name : text) :
  Forall (λ c, is_ascii c = true) name →
  lower (lower name) = lower name.
Proof.
  intros Hascii. unfold lower. rewrite (forallb_ascii name Hascii).
  rewrite forallb_ascii.
  - rewrite <- list_fmap_compose. apply list_fmap_ext.
    intros i c _. simpl. apply ascii_lower_char_idem.
  - apply Forall_fmap. eapply Forall_impl; [exact Hascii|].
    intros c Hc. simpl. by apply ascii_lower_char_ascii.
Qed.

(** X25. On ASCII file names the image test does not depend on letter case:
    a name and its lower-case form get the same verdict. *)
Theorem is_image_ignores_case (name : text) :
  Forall (λ c, is_ascii c = true) name →
  is_image (lower name) = is_image name.
Proof.
  intros Hascii. unfold is_image. by rewrite lower_ascii_idem.
Qed.
End AttachmentEdges.

Lemma summarize_attachments_missing_name_witness :
  result_of (summarize_attachments (H := ascii_only) (H0 := ascii_codec)
               four_files_world
               ([mk_attachment (text_of "2") (text_of "b.txt")]
                  ++ {[ "sys_id" := text_of "7" ]} :: [])
               initial_session)
  = Raised (KeyError "file_name").
Proof.
  apply (summarize_attachments_missing_name (H := ascii_only) (H0 := ascii_codec)
           four_files_world [mk_attachment (text_of "2") (text_of "b.txt")]
           {[ "sys_id" := text_of "7" ]} [] initial_session).
  - repeat (constructor; [by eexists|]). constructor.
  - reflexivity.
Defined.

Lemma is_image_ignores_case_witness :
  is_image (H := ascii_only) (lower (H := ascii_only) (text_of "c.JPG"))
  = is_image (H := ascii_only) (text_of "c.JPG").
Proof.
  apply (is_image_ignores_case (H := ascii_only) (text_of "c.JPG")).
  repeat (constructor; [reflexivity|]). constructor.
Defined.
